(** * Mines: the N-dimensional minesweeper engine of [mines/lab.py]

    A shallow embedding of the array helpers, the coordinate geometry, the
    game construction, the dig operation and the renderers of [lab.py],
    followed by the properties of the specification that hold of them and
    by evaluations of the code where it departs from them.

    Python exceptions are modelled by [None] in the option monad; integers
    are [Z]; tuples of integers are [list Z]; nested Python lists are the
    trees [nd].  The renderers, whose interest lies in what they do *not*
    mutate, are modelled a second time over an explicit object store in
    [Module Store]. *)

From Stdlib Require Import ZArith String Ascii.
From stdpp Require Import base option list gmap strings pretty.

Local Open Scope Z_scope.
Set Warnings "-clear-no-such-hyp".

(** ** Python sequence subscripts *)

(** [seq[i]] for a sequence of length [n]: indices [0 .. n-1] count from the
    front, indices [-n .. -1] from the back, everything else raises
    [IndexError]. *)
Definition py_index (n : nat) (i : Z) : option nat :=
  if bool_decide (0 ≤ i < Z.of_nat n) then Some (Z.to_nat i)
  else if bool_decide (- Z.of_nat n ≤ i < 0) then Some (Z.to_nat (Z.of_nat n + i))
  else None.

Definition getitem {A} (l : list A) (i : Z) : option A :=
  k ← py_index (length l) i; l !! k.

Definition setitem {A} (l : list A) (i : Z) (x : A) : option (list A) :=
  k ← py_index (length l) i; Some (<[k:=x]> l).

(** [range(a, b)] and [range(n)]. *)
Definition range2 (a b : Z) : list Z :=
  (λ k : nat, a + Z.of_nat k) <$> seq 0 (Z.to_nat (b - a)).

Definition range (n : Z) : list Z := range2 0 n.

(** ** Nested arrays *)

(** A nested Python list whose leaves are values of type [A]. *)
#[warnings="-register-all"]
Inductive nd (A : Type) : Type :=
  | Leaf (a : A)
  | Node (l : list (nd A)).
Arguments Leaf {A} a.
Arguments Node {A} l.

(** Board cells: the bomb marker ['.'] or an integer count. *)
Inductive cell : Type :=
  | Bomb
  | Count (n : Z).

Global Instance cell_eq_dec : EqDecision cell.
Proof. solve_decision. Defined.

(** What subscripting a leaf value does.  An [int] or a [bool] is not
    subscriptable ([TypeError]); the one-character string ['.'] is, and
    yields itself at index [0] or [-1]. *)
Class LeafSubscript (A : Type) := leaf_getitem : A → Z → option A.

Global Instance bool_subscript : LeafSubscript bool := λ _ _, None.

Global Instance cell_subscript : LeafSubscript cell := λ c i,
  match c with
  | Bomb => if bool_decide (i = 0 ∨ i = -1) then Some Bomb else None
  | Count _ => None
  end.

(** [board[i]] *)
Definition subscript {A} `{LeafSubscript A} (board : nd A) (i : Z) : option (nd A) :=
  match board with
  | Leaf a => Leaf <$> leaf_getitem a i
  | Node l => getitem l i
  end.

(** [find_val(board, coordinate)] *)
Fixpoint find_val {A} `{LeafSubscript A} (board : nd A) (coordinate : list Z)
    : option (nd A) :=
  match coordinate with
  | [] => Some board
  | first :: rest => b ← subscript board first; find_val b rest
  end.

(** [replace(board, coordinate, value)].  The array is updated in place in
    the source; here the updated array is returned.  On a leaf the call
    raises whatever the coordinate: an [int] or a [bool] can be neither
    subscripted nor assigned to, and a [str], which can be subscripted,
    yields strings only and does not support item assignment. *)
Fixpoint replace {A} `{LeafSubscript A} (board : nd A) (coordinate : list Z) (value : nd A)
    : option (nd A) :=
  match coordinate with
  | [] => None
  | [first] =>
      match board with
      | Leaf _ => None
      | Node l => Node <$> setitem l first value
      end
  | first :: rest =>
      match board with
      | Leaf _ => None
      | Node l =>
          b ← getitem l first;
          b' ← replace b rest value;
          Node <$> setitem l first b'
      end
  end.

(** [new_board(dimensions, value)] *)
Fixpoint new_board {A} (dimensions : list Z) (value : A) : option (nd A) :=
  match dimensions with
  | [] => None
  | [d] => Some (Node ((λ _, Leaf value) <$> range d))
  | d :: rest => Node <$> mapM (λ _, new_board rest value) (range d)
  end.

(** ** Coordinate geometry *)

(** [get_neighbors(dimensions, coordinate)], the generator run to its end.
    [coordinate[0]] raises on the empty coordinate; [dimensions[0]] is only
    evaluated, and only then raises on empty dimensions, for an index [i]
    that is not negative. *)
Fixpoint get_neighbors (dimensions coordinate : list Z) : option (list (list Z)) :=
  match coordinate with
  | [] => None
  | c0 :: cs =>
      (λ yielded, concat yielded) <$> mapM (λ i,
        if bool_decide (i < 0) then Some []
        else match dimensions with
             | [] => None
             | d0 :: ds =>
                 if bool_decide (d0 ≤ i) then Some []
                 else match cs with
                      | [] => Some [[i]]
                      | _ => fmap (M:=list) (cons i) <$> get_neighbors ds cs
                      end
             end) (range2 (c0 - 1) (c0 + 2))
  end.

(** [coords(dimensions)], the generator run to its end. *)
Fixpoint coords (dimensions : list Z) : list (list Z) :=
  match dimensions with
  | [] => [[]]
  | d :: rest => i ← range d; cons i <$> coords rest
  end.

(** A [for] loop whose body updates a state and may raise. *)
Fixpoint for_loop {S X} (body : S → X → option S) (l : list X) (s : S) : option S :=
  match l with
  | [] => Some s
  | x :: l' => s' ← body s x; for_loop body l' s'
  end.

(** [get_coordinates(dimensions)], which builds a Python [set]. *)
Fixpoint get_coordinates (dimensions : list Z) : option (gset (list Z)) :=
  match dimensions with
  | [] => None
  | d :: rest =>
      for_loop (λ (coordinates : gset (list Z)) x,
                  match rest with
                  | [] => Some (coordinates ∪ {[ [x] ]})
                  | _ => ys ← get_coordinates rest;
                         Some (coordinates ∪ set_map (cons x) ys)
                  end)
               (range d) ∅
  end.

(** A coordinate is valid when each component lies in [[0, dimensions[axis])]. *)
Definition valid (dimensions coordinate : list Z) : Prop :=
  Forall2 (λ d x, 0 ≤ x < d) dimensions coordinate.

Global Instance valid_dec dims c : Decision (valid dims c).
Proof. unfold valid. apply _. Defined.

(** ** The game state *)

Inductive status : Type := Ongoing | Defeat | Victory.

Global Instance status_eq_dec : EqDecision status.
Proof. solve_decision. Defined.

(** The game dictionary, with its four keys. *)
Record game : Type := Game {
  dimensions : list Z;
  board : nd cell;
  hidden : nd bool;
  state : status
}.

Definition set_hidden (g : game) (h : nd bool) : game :=
  {| dimensions := dimensions g; board := board g; hidden := h; state := state g |}.

Definition set_state (g : game) (s : status) : game :=
  {| dimensions := dimensions g; board := board g; hidden := hidden g; state := s |}.

(** The inner loop of [new_game_nd]: one neighbour of one bomb. *)
Definition count_up (bombs : list (list Z)) (board : nd cell) (neighbor : list Z)
    : option (nd cell) :=
  if bool_decide (neighbor ∈ bombs) then Some board
  else
    previous ← find_val board neighbor;
    match previous with
    | Leaf (Count k) => replace board neighbor (Leaf (Count (k + 1)))
    | _ => None
    end.

(** The outer loop of [new_game_nd]: one bomb. *)
Definition place_bomb (dimensions : list Z) (bombs : list (list Z))
    (board : nd cell) (bomb_coords : list Z) : option (nd cell) :=
  bomb_neighbors ← get_neighbors dimensions bomb_coords;
  board ← replace board bomb_coords (Leaf Bomb);
  for_loop (count_up bombs) bomb_neighbors board.

(** [new_game_nd(dimensions, bombs)] *)
Definition new_game_nd (dimensions : list Z) (bombs : list (list Z)) : option game :=
  board ← new_board dimensions (Count 0);
  hidden ← new_board dimensions true;
  board ← for_loop (place_bomb dimensions bombs) bombs board;
  Some {| dimensions := dimensions; board := board; hidden := hidden; state := Ongoing |}.

(** [new_game_2d(num_rows, num_cols, bombs)] *)
Definition new_game_2d (num_rows num_cols : Z) (bombs : list (list Z)) : option game :=
  new_game_nd [num_rows; num_cols] bombs.

(** ** Digging *)

(** The result of a call that may raise and whose recursion is cut by a
    fuel counter in this model. *)
Inductive outcome (A : Type) : Type :=
  | Done (a : A)
  | Raised
  | Exhausted.
Arguments Done {A} a.
Arguments Raised {A}.
Arguments Exhausted {A}.

Global Instance outcome_ret : MRet outcome := λ _ a, Done a.
Global Instance outcome_bind : MBind outcome := λ _ _ f m,
  match m with
  | Done a => f a
  | Raised => Raised
  | Exhausted => Exhausted
  end.

Definition lift {A} (o : option A) : outcome A :=
  match o with
  | Some a => Done a
  | None => Raised
  end.

(** Python truth value of an entry of the hidden array: a [bool] is itself,
    a list is true when it is not empty. *)
Definition truthy (h : nd bool) : bool :=
  match h with
  | Leaf b => b
  | Node [] => false
  | Node _ => true
  end.

(** [uncovered == 0] *)
Definition is_zero (v : nd cell) : bool :=
  match v with
  | Leaf (Count 0) => true
  | _ => false
  end.

(** [for i in neighbors: total += zero(game, i)] *)
Fixpoint sum_loop (call : game → list Z → outcome (Z * game))
    (neighbors : list (list Z)) (total : Z) (g : game) : outcome (Z * game) :=
  match neighbors with
  | [] => Done (total, g)
  | i :: rest =>
      r ← call g i;
      sum_loop call rest (total + r.1) r.2
  end.

(** The local function [zero(game, coordinates)] of [dig_nd]. *)
Fixpoint zero (fuel : nat) (g : game) (coordinates : list Z) : outcome (Z * game) :=
  match fuel with
  | O => Exhausted
  | S fuel' =>
      h ← lift (find_val (hidden g) coordinates);
      if truthy h then Done (0 + 1, g)
      else
        hid ← lift (replace (hidden g) coordinates (Leaf true));
        let g := set_hidden g hid in
        uncovered ← lift (find_val (board g) coordinates);
        if is_zero uncovered then
          neighbors ← lift (get_neighbors (dimensions g) coordinates);
          hid ← lift (replace (hidden g) coordinates (Leaf true));
          let g := set_hidden g hid in
          sum_loop (zero fuel') neighbors 0 g
        else Done (0, g)
  end.

(** The number of entries of a hidden array that are false in Python's
    sense; every call of [zero] that goes past its first test removes one,
    which bounds the depth of the recursion. *)
Fixpoint falsy_count (h : nd bool) : nat :=
  match h with
  | Leaf b => if b then 0%nat else 1%nat
  | Node l =>
      ((if l is [] then 1 else 0) + foldr (λ t n, falsy_count t + n) 0 l)%nat
  end.

(** [dig_nd(game, coordinates)] *)
Definition dig_nd (g : game) (coordinates : list Z) : outcome (Z * game) :=
  val ← lift (find_val (board g) coordinates);
  if bool_decide (state g = Defeat ∨ state g = Victory) then Done (0, g)
  else
    match val with
    | Leaf Bomb =>
        hid ← lift (replace (hidden g) coordinates (Leaf false));
        Done (1, set_state (set_hidden g hid) Defeat)
    | Leaf (Count 0) =>
        hid ← lift (replace (hidden g) coordinates (Leaf false));
        zero (S (falsy_count hid)) (set_hidden g hid) coordinates
    | Leaf (Count n) =>
        if bool_decide (n > 0) then Done (1, set_state g Ongoing)
        else Done (n, g)
    | Node _ => Raised
    end.

(** [dig_2d(game, row, col)] *)
Definition dig_2d (g : game) (row col : Z) : outcome (Z * game) :=
  dig_nd g [row; col].

(** The board of the doctests of [new_game_2d] and [dig_2d]. *)
Definition board24 : nd cell :=
  Node [Node [Leaf Bomb; Leaf (Count 3); Leaf (Count 1); Leaf (Count 0)];
        Node [Leaf Bomb; Leaf Bomb; Leaf (Count 1); Leaf (Count 0)]].

Definition hidden_of (rows : list (list bool)) : nd bool :=
  Node ((λ row, Node (Leaf <$> row)) <$> rows).


(** ** Well-formed arrays and games *)

(** An array has the shape given by a dimensions vector: one level of
    nesting per axis, [dimensions[axis]] entries at each level, leaves
    below the last axis. *)
Fixpoint shaped {A} (dims : list Z) (t : nd A) : bool :=
  match dims, t with
  | [], Leaf _ => true
  | d :: ds, Node l => bool_decide (length l = Z.to_nat d) && forallb (shaped ds) l
  | _, _ => false
  end.

(** The shape invariant of the game state. *)
Definition wf_game (g : game) : Prop :=
  shaped (dimensions g) (board g) ∧ shaped (dimensions g) (hidden g).

(** ** Specification-side notions of the geometry *)

(** Two coordinates differ by at most 1 on every axis. *)
Definition adjacent (c n : list Z) : Prop :=
  Forall2 (λ x y, -1 ≤ y - x ≤ 1) c n.

Global Instance adjacent_dec c n : Decision (adjacent c n).
Proof. unfold adjacent. apply _. Defined.

(** The indices next to [c0] that exist on an axis of length [d]. *)
Definition axis (d c0 : Z) : list Z :=
  filter (λ i, 0 ≤ i < d) [c0 - 1; c0; c0 + 1].

(** The neighbours of a coordinate, axis by axis. *)
Fixpoint neighbors_list (dims c : list Z) : list (list Z) :=
  match dims, c with
  | [], [] => [[]]
  | d :: ds, c0 :: cs => i ← axis d c0; cons i <$> neighbors_list ds cs
  | _, _ => []
  end.

(** ** Loop invariants of [new_game_nd] *)

(** Every cell that is not a bomb holds an integer. *)
Definition counts_outside_bombs (dims : list Z) (bombs : list (list Z))
    (t : nd cell) : Prop :=
  ∀ c, valid dims c → c ∉ bombs → ∃ k, find_val t c = Some (Leaf (Count k)).

(** The number of bombs among [done] that have [c] as a neighbour. *)
Definition hits (dims : list Z) (done : list (list Z)) (c : list Z) : Z :=
  Z.of_nat (length (filter (λ b, c ∈ neighbors_list dims b) done)).

(** What the outer loop has established once the bombs of [done] are
    processed. *)
Definition placed (dims : list Z) (bombs done : list (list Z)) (t : nd cell) : Prop :=
  shaped dims t ∧
  (∀ b, b ∈ done → find_val t b = Some (Leaf Bomb)) ∧
  (∀ c, valid dims c → c ∉ bombs →
        find_val t c = Some (Leaf (Count (hits dims done c)))).

(** ** The win condition, in the words of the specification *)

(** Every cell that is not a bomb has been revealed and every bomb cell is
    still hidden. *)
Definition won (g : game) : bool :=
  forallb (λ c,
    match find_val (board g) c, find_val (hidden g) c with
    | Some (Leaf Bomb), Some (Leaf h) => h
    | Some (Leaf (Count _)), Some (Leaf h) => negb h
    | _, _ => false
    end) (coords (dimensions g)).

(** ** Games of the doctests *)

Definition game24 (rows : list (list bool)) : game :=
  {| dimensions := [2; 4]; board := board24; hidden := hidden_of rows;
     state := Ongoing |}.

(** The board of the doctests of [new_game_nd] and [dig_nd]. *)
Definition board242 : nd cell :=
  Node [Node [Node [Leaf (Count 3); Leaf Bomb]; Node [Leaf (Count 3); Leaf (Count 3)];
              Node [Leaf (Count 1); Leaf (Count 1)]; Node [Leaf (Count 0); Leaf (Count 0)]];
        Node [Node [Leaf Bomb; Leaf (Count 3)]; Node [Leaf (Count 3); Leaf Bomb];
              Node [Leaf (Count 1); Leaf (Count 1)]; Node [Leaf (Count 0); Leaf (Count 0)]]].

Definition hidden242 : nd bool :=
  Node [hidden_of [[true; true]; [true; false]; [true; true]; [true; true]];
        hidden_of [[true; true]; [true; true]; [true; true]; [true; true]]].

Definition game242 : game :=
  {| dimensions := [2; 4; 2]; board := board242; hidden := hidden242;
     state := Ongoing |}.

(** ** Predicates on outcomes *)

(** [P] holds of the result of a call that returned; [r] and [e] say
    whether raising and running out of fuel are acceptable. *)
Definition out_sat (P : Z → game → Prop) (r e : Prop) (o : outcome (Z * game)) : Prop :=
  match o with
  | Done (n, g') => P n g'
  | Raised => r
  | Exhausted => e
  end.

(** The sum inside [falsy_count]. *)
Definition falsy_sum (l : list (nd bool)) : nat :=
  foldr (λ t n, falsy_count t + n)%nat 0%nat l.

(** An entry of the hidden array below which there is nothing to address:
    a leaf or the empty list. *)
Definition atomic (u : nd bool) : Prop :=
  match u with
  | Leaf _ => True
  | Node l => l = []
  end.

(** [g'] is [g] with some entries of the hidden array turned to [True]:
    same dimensions, board and state, no more false entries than before,
    and every entry that read [True] still reads [True]. *)
Definition rehidden (g g' : game) : Prop :=
  dimensions g' = dimensions g ∧ board g' = board g ∧ state g' = state g ∧
  (falsy_count (hidden g') ≤ falsy_count (hidden g))%nat ∧
  ∀ c, find_val (hidden g) c = Some (Leaf true) →
       find_val (hidden g') c = Some (Leaf true).

(** ** The renderers, over an object store *)

(** The renderers build their result out of list objects, some of which
    start as copies of the game's own lists.  Whether they leave the game
    alone is a question about which objects they assign to, so here lists
    are objects in a store, values refer to them by location, and every
    statement of the source that assigns to a list is a write to the
    store.  The game dictionary, which the renderers only read, is a record
    of the values under its four keys. *)
Module Store.

Definition loc : Type := positive.

(** Python values that occur in a game: integers, booleans, strings,
    tuples of integers (the dimensions) and references to list
    objects. *)
Inductive val : Type :=
  | VInt (z : Z)
  | VBool (b : bool)
  | VStr (s : string)
  | VTuple (zs : list Z)
  | VRef (l : loc).

(** The store maps the location of each list object to its items. *)
Definition M (A : Type) : Type :=
  gmap loc (list val) → option A * gmap loc (list val).

Global Instance M_ret : MRet M := λ _ a σ, (Some a, σ).

(** An exception ([None]) stops the computation where it is raised, with
    the store as it is then. *)
Global Instance M_bind : MBind M := λ _ _ f m σ,
  match m σ with
  | (Some a, σ') => f a σ'
  | (None, σ') => (None, σ')
  end.

Definition raise {A} : M A := λ σ, (None, σ).

Definition lift {A} (o : option A) : M A := λ σ, (o, σ).

(** The items of a list object. *)
Definition read (l : loc) : M (list val) := λ σ, (σ !! l, σ).

(** Assigning to a list object. *)
Definition write (l : loc) (vs : list val) : M unit := λ σ, (Some tt, <[l:=vs]> σ).

(** A new list object. *)
Definition alloc (vs : list val) : M loc := λ σ,
  let l := fresh (dom σ) in (Some l, <[l:=vs]> σ).

Record game : Type := Game {
  dimensions : val;
  board : val;
  hidden : val;
  state : val
}.

(** An [int]; a [bool] counts as one. *)
Definition as_int (v : val) : option Z :=
  match v with
  | VInt z => Some z
  | VBool b => Some (Z.b2z b)
  | _ => None
  end.

(** [v[i]] *)
Definition subscript (v : val) (i : Z) : M val :=
  match v with
  | VRef l => vs ← read l; lift (getitem vs i)
  | VStr s => lift ((λ a, VStr (String a EmptyString)) <$>
                      getitem (list_ascii_of_string s) i)
  | VTuple zs => lift (VInt <$> getitem zs i)
  | _ => raise
  end.

(** [v[i] = x]; only lists support item assignment. *)
Definition store_item (v : val) (i : Z) (x : val) : M unit :=
  match v with
  | VRef l => vs ← read l; vs' ← lift (setitem vs i x); write l vs'
  | _ => raise
  end.

(** [board.append(x)] *)
Definition append (l : loc) (x : val) : M unit :=
  vs ← read l; write l (vs ++ [x]).

(** A dimensions value as the sequence of integers that [len], [[0]] and
    [[1:]] see: a tuple, or a list of integers. *)
Definition dims_of (v : val) : M (list Z) :=
  match v with
  | VTuple zs => mret zs
  | VRef l => vs ← read l; lift (mapM as_int vs)
  | _ => raise
  end.

(** A [for] loop. *)
Fixpoint for_each {X} (xs : list X) (body : X → M unit) : M unit :=
  match xs with
  | [] => mret tt
  | x :: rest => body x;; for_each rest body
  end.

(** [find_val(board, coordinate)] *)
Fixpoint find_val (board : val) (coordinate : list Z) : M val :=
  match coordinate with
  | [] => mret board
  | first :: rest => b ← subscript board first; find_val b rest
  end.

(** [replace(board, coordinate, value)] *)
Fixpoint replace (board : val) (coordinate : list Z) (value : val) : M unit :=
  match coordinate with
  | [] => raise
  | [first] => store_item board first value
  | first :: rest => b ← subscript board first; replace b rest value
  end.

(** [new_board(dimensions, value)] *)
Fixpoint new_board (dimensions : list Z) (value : val) : M val :=
  board ← alloc [];
  match dimensions with
  | [] => raise
  | [d] => for_each (range d) (λ _, append board value);; mret (VRef board)
  | d :: rest =>
      for_each (range d) (λ _, sub ← new_board rest value; append board sub);;
      mret (VRef board)
  end.

(** Python truth value. *)
Definition truthy (v : val) : M bool :=
  match v with
  | VInt z => mret (bool_decide (z ≠ 0))
  | VBool b => mret b
  | VStr s => mret (bool_decide (s ≠ EmptyString))
  | VTuple zs => mret (bool_decide (zs ≠ []))
  | VRef l => vs ← read l; mret (bool_decide (vs ≠ []))
  end.

(** [v == True] *)
Definition eq_True (v : val) : bool :=
  match v with
  | VBool b => b
  | VInt z => bool_decide (z = 1)
  | _ => false
  end.

(** [v == '0'] *)
Definition eq_str0 (v : val) : bool :=
  match v with
  | VStr s => bool_decide (s = "0"%string)
  | _ => false
  end.

Section renderers.
(** Python's [repr] of a tuple or of a list object, which [str] returns
    for them; the renderers meet it only on arrays that are deeper
    than the dimensions say, and nothing below depends on it. *)
Variable repr : gmap loc (list val) → val → string.

(** [str(v)] *)
Definition str (v : val) : M string := λ σ,
  (Some match v with
        | VInt z => pretty z
        | VBool true => "True"%string
        | VBool false => "False"%string
        | VStr s => s
        | _ => repr σ v
        end, σ).

(** [list(map(str, v))], as a list of items not yet made an object. *)
Definition map_str (v : val) : M (list val) :=
  match v with
  | VRef l => vs ← read l; mapM (λ x, s ← str x; mret (VStr s)) vs
  | VStr s => mret ((λ a, VStr (String a EmptyString)) <$> list_ascii_of_string s)
  | VTuple zs => mret ((λ z, VStr (pretty z)) <$> zs)
  | _ => raise
  end.

(** [v[:]] *)
Definition slice_copy (v : val) : M val :=
  match v with
  | VRef l => vs ← read l; l' ← alloc vs; mret (VRef l')
  | VStr _ | VTuple _ => mret v
  | _ => raise
  end.

(** The body of the loop of [render_nd]. *)
Definition render_cell (board hidden final : val) (xray : bool) (i : list Z)
    : M unit :=
  found ← find_val board i;
  value ← str found;
  (if xray then
     if bool_decide (value = "0"%string) then replace final i (VStr " ")
     else replace final i (VStr value)
   else mret tt);;
  (if negb xray then
     hidden_value ← find_val hidden i;
     if eq_True hidden_value then replace final i (VStr "_")
     else if bool_decide (value = "0"%string) then replace final i (VStr " ")
     else replace final i (VStr value)
   else mret tt).

(** [render_nd(game, xray)] *)
Definition render_nd (g : game) (xray : bool) : M val :=
  let board := board g in
  dims ← dims_of (dimensions g);
  final ← new_board dims (VStr "0");
  let hidden := hidden g in
  all_coordinates ← lift (get_coordinates dims);
  for_each (elements all_coordinates) (render_cell board hidden final xray);;
  mret final.

(** The body of the inner loop of [render_2d_locations]. *)
Definition render_2d_cell (board hidden : val) (xray : bool) (row col : Z)
    : M unit :=
  if xray then
    r ← subscript board row; x ← subscript r col;
    if eq_str0 x then r ← subscript board row; store_item r col (VStr " ")
    else mret tt
  else
    hr ← subscript hidden row; h ← subscript hr col; t ← truthy h;
    if (t : bool) then r ← subscript board row; store_item r col (VStr "_")
    else
      r ← subscript board row; x ← subscript r col;
      if eq_str0 x then r ← subscript board row; store_item r col (VStr " ")
      else mret tt.

(** [range(dimensions[k])] *)
Definition axis_range (dimensions : val) (k : Z) : M (list Z) :=
  d ← subscript dimensions k; n ← lift (as_int d); mret (range n).

(** The body of the outer loop of [render_2d_locations]. *)
Definition render_2d_row (dimensions board hidden : val) (xray : bool) (row : Z)
    : M unit :=
  r ← subscript board row;
  strs ← map_str r;
  fresh_row ← alloc strs;
  store_item board row (VRef fresh_row);;
  cols ← axis_range dimensions 1;
  for_each cols (render_2d_cell board hidden xray row).

(** [render_2d_locations(game, xray)] *)
Definition render_2d_locations (g : game) (xray : bool) : M val :=
  board ← slice_copy (board g);
  let hidden := hidden g in
  let dimensions := dimensions g in
  rows ← axis_range dimensions 0;
  for_each rows (render_2d_row dimensions board hidden xray);;
  mret board.

(** ["\n"] *)
Definition newline : string := String "010"%char EmptyString.

(** [join] with the empty separator, applied to [v] *)
Definition join (v : val) : M string :=
  match v with
  | VRef l =>
      vs ← read l;
      lift (foldr (λ x acc, match x with
                            | VStr s => (λ rest, s +:+ rest) <$> acc
                            | _ => None
                            end) (Some EmptyString) vs)
  | VStr s => mret s
  | VTuple [] => mret EmptyString
  | _ => raise
  end.

(** The loop of [render_2d_board], which builds the string. *)
Fixpoint join_rows (d : val) (last : Z) (rows : list Z) (art : string) : M string :=
  match rows with
  | [] => mret art
  | row :: rest =>
      r ← subscript d row;
      line ← join r;
      let art := (art +:+ line)%string in
      let art := if bool_decide (row ≠ last) then (art +:+ newline)%string
                 else art in
      join_rows d last rest art
  end.

(** [render_2d_board(game, xray)] *)
Definition render_2d_board (g : game) (xray : bool) : M string :=
  d ← render_2d_locations g xray;
  let dimensions := dimensions g in
  d0 ← subscript dimensions 0;
  n ← lift (as_int d0);
  join_rows d (n - 1) (range n) EmptyString.
End renderers.

(** *** A program logic for the store *)

(** From a store that satisfies [P], [m] ends in a store that satisfies
    [Q a] when it returns [a] and [E] when it raises. *)
Definition hoare {A} (P : gmap loc (list val) → Prop) (m : M A)
    (Q : A → gmap loc (list val) → Prop) (E : gmap loc (list val) → Prop) : Prop :=
  ∀ σ, P σ → match m σ with
             | (Some a, σ') => Q a σ'
             | (None, σ') => E σ'
             end.

(** The computation [m] does not change the store. *)
Definition reads {A} (m : M A) : Prop := ∀ σ, (m σ).2 = σ.

(** A value that does not refer to an object of the store [σ0]. *)
Definition fresh_val (σ0 : gmap loc (list val)) (v : val) : Prop :=
  match v with
  | VRef l => σ0 !! l = None
  | _ => True
  end.

(** What a call returned, if it returned, does not refer to an object of
    the store [σ0]. *)
Definition fresh_result (σ0 : gmap loc (list val)) (r : option val) : Prop :=
  match r with
  | Some v => fresh_val σ0 v
  | None => True
  end.

(** The store [σ] has every object of [σ0], unchanged, and the objects
    it has beyond those refer only to one another. *)
Definition extends (σ0 σ : gmap loc (list val)) : Prop :=
  σ0 ⊆ σ ∧
  ∀ l vs, σ0 !! l = None → σ !! l = Some vs → Forall (fresh_val σ0) vs.

(** The store [σ] has every object of [σ0], unchanged, and the new list
    [b] holds at [row] a reference to another new list. *)
Definition row_ready (σ0 : gmap loc (list val)) (b : loc) (row : Z)
    (σ : gmap loc (list val)) : Prop :=
  σ0 ⊆ σ ∧ σ0 !! b = None ∧
  ∃ vs r, σ !! b = Some vs ∧ getitem vs row = Some (VRef r) ∧
          σ0 !! r = None ∧ r ≠ b.

(** The game of the doctests of [render_2d_locations], in a store. *)
Definition cell_val (c : cell) : val :=
  match c with
  | Bomb => VStr "."
  | Count n => VInt n
  end.

Definition store24 (rows : list (list bool)) : gmap loc (list val) :=
  {[ 1%positive := [VRef 2%positive; VRef 3%positive];
     2%positive := cell_val <$> [Bomb; Count 3; Count 1; Count 0];
     3%positive := cell_val <$> [Bomb; Bomb; Count 1; Count 0];
     4%positive := [VRef 5%positive; VRef 6%positive];
     5%positive := VBool <$> (rows !!! 0%nat);
     6%positive := VBool <$> (rows !!! 1%nat) ]}.

Definition game24 : game :=
  {| dimensions := VTuple [2; 4]; board := VRef 1%positive;
     hidden := VRef 4%positive;
     state := VStr "ongoing" |}.

(** The nested lists below a value, read off the store. *)
Fixpoint contents (depth : nat) (σ : gmap loc (list val)) (v : val) : nd val :=
  match depth, v with
  | S depth', VRef l => Node (contents depth' σ <$> default [] (σ !! l))
  | _, _ => Leaf v
  end.

End Store.

(** ** Subscripts that Python accepts *)

(** Every component of the coordinate is an index its axis accepts, from
    the front or, when negative, from the back. *)
Definition in_range (dims c : list Z) : Prop :=
  Forall2 (λ d i, - d ≤ i < d) dims c.

Global Instance in_range_dec dims c : Decision (in_range dims c).
Proof. unfold in_range. apply _. Defined.

(** The coordinate with its negative components counted from the back. *)
Definition wrap (dims c : list Z) : list Z :=
  zip_with (λ d i, if bool_decide (i < 0) then d + i else i) dims c.

(** The number of cells of a board: the product of its dimensions. *)
Definition cells (dims : list Z) : nat :=
  foldr (λ d n, Z.to_nat d * n)%nat 1%nat dims.

(** ** The renderers, on arrays as values *)

(** What the renderers return.  That they leave the lists of the game alone
    is a matter of the store, above; their result is a matter of values:
    [render_nd] fills an array that [new_board] has just built, in which
    no list occurs twice, and [render_2d_locations] fills rows that it has
    just built, so that an assignment to one position shows at that
    position only, as with [replace] on [nd]. *)

(** Subscripting a string yields the one-character string at the index. *)
Global Instance string_subscript : LeafSubscript string := λ s i,
  (λ a, String a EmptyString) <$> getitem (list_ascii_of_string s) i.

(** What a revealed cell shows: the bomb marker, a space for 0, and the
    count otherwise. *)
Definition symbol (b : cell) : string :=
  match b with
  | Bomb => "."
  | Count n => if bool_decide (n = 0) then " " else pretty n
  end.

(** What the cell at a coordinate shows: ["_"] when it is hidden and the
    view is not an x-ray, its symbol otherwise. *)
Definition shown (g : game) (xray : bool) (c : list Z) : string :=
  match find_val (board g) c, find_val (hidden g) c with
  | Some (Leaf b), Some (Leaf h) => if negb xray && h then "_" else symbol b
  | _, _ => EmptyString
  end.

Section render.
(** Python's [str] of a list, which the renderers reach only on a board
    that is deeper than the dimensions say. *)
Variable repr : ∀ A : Type, nd A → string.

(** [str(found)] for an entry of the board. *)
Definition str (found : nd cell) : string :=
  match found with
  | Leaf Bomb => "."
  | Leaf (Count n) => pretty n
  | Node _ => repr cell found
  end.

(** [hidden_value == True] *)
Definition eq_True (hidden_value : nd bool) : bool :=
  match hidden_value with
  | Leaf b => b
  | Node _ => false
  end.

(** The body of the loop of [render_nd]. *)
Definition render_cell (g : game) (xray : bool) (final : nd string) (i : list Z)
    : option (nd string) :=
  found ← find_val (board g) i;
  let value := str found in
  final ← (if xray then
             if bool_decide (value = "0"%string)
             then replace final i (Leaf " "%string)
             else replace final i (Leaf value)
           else Some final);
  if negb xray then
    hidden_value ← find_val (hidden g) i;
    if eq_True hidden_value then replace final i (Leaf "_"%string)
    else if bool_decide (value = "0"%string)
         then replace final i (Leaf " "%string)
         else replace final i (Leaf value)
  else Some final.

(** [render_nd(game, xray)] *)
Definition render_nd (g : game) (xray : bool) : option (nd string) :=
  final ← new_board (dimensions g) "0"%string;
  all_coordinates ← get_coordinates (dimensions g);
  for_loop (render_cell g xray) (elements all_coordinates) final.

(** An entry of the array that [render_2d_locations] works on: a value of
    the board as it was, or a string put there by the renderer. *)
Inductive out : Type :=
  | Raw (c : cell)
  | Text (s : string).

Global Instance out_subscript : LeafSubscript out := λ o i,
  match o with
  | Raw c => Raw <$> leaf_getitem c i
  | Text s => Text <$> leaf_getitem s i
  end.

(** The same array with every leaf mapped. *)
Fixpoint nd_map {A B} (f : A → B) (t : nd A) : nd B :=
  match t with
  | Leaf a => Leaf (f a)
  | Node l => Node (nd_map f <$> l)
  end.

(** [game['board'][:]]: a new list with the rows of the board; a string
    is its own slice, an [int] has none. *)
Definition slice_copy (b : nd cell) : option (nd out) :=
  match b with
  | Node rows => Some (Node (nd_map Raw <$> rows))
  | Leaf Bomb => Some (Leaf (Raw Bomb))
  | Leaf (Count _) => None
  end.

(** [str(x)] for an item of a row. *)
Definition str_out (x : nd out) : string :=
  match x with
  | Leaf (Raw c) => str (Leaf c)
  | Leaf (Text s) => s
  | Node _ => repr out x
  end.

(** [list(map(str, r))]: over the items of a list, or over the characters
    of a string. *)
Definition map_str (r : nd out) : option (list (nd out)) :=
  match r with
  | Node items => Some ((λ x, Leaf (Text (str_out x))) <$> items)
  | Leaf (Raw Bomb) => Some [Leaf (Text ".")]
  | Leaf (Raw (Count _)) => None
  | Leaf (Text s) =>
      Some ((λ a, Leaf (Text (String a EmptyString))) <$> list_ascii_of_string s)
  end.

(** [x == '0'] *)
Definition eq_str0 (x : nd out) : bool :=
  match x with
  | Leaf (Text s) => bool_decide (s = "0"%string)
  | _ => false
  end.

(** The body of the inner loop of [render_2d_locations]. *)
Definition render_2d_cell (g : game) (xray : bool) (row : Z) (board : nd out) (col : Z)
    : option (nd out) :=
  if xray then
    x ← find_val board [row; col];
    if eq_str0 x then replace board [row; col] (Leaf (Text " ")) else Some board
  else
    h ← find_val (hidden g) [row; col];
    if truthy h then replace board [row; col] (Leaf (Text "_"))
    else
      x ← find_val board [row; col];
      if eq_str0 x then replace board [row; col] (Leaf (Text " ")) else Some board.

(** The body of the outer loop of [render_2d_locations]. *)
Definition render_2d_row (g : game) (xray : bool) (board : nd out) (row : Z)
    : option (nd out) :=
  r ← find_val board [row];
  strs ← map_str r;
  board ← replace board [row] (Node strs);
  d1 ← getitem (dimensions g) 1;
  for_loop (render_2d_cell g xray row) (range d1) board.

(** [render_2d_locations(game, xray)] *)
Definition render_2d_locations (g : game) (xray : bool) : option (nd out) :=
  board ← slice_copy (board g);
  d0 ← getitem (dimensions g) 0;
  for_loop (render_2d_row g xray) (range d0) board.

(** [join] with the empty separator: the items must be strings. *)
Definition join (r : nd out) : option string :=
  match r with
  | Node items =>
      foldr (λ x acc, match x with
                      | Leaf (Text s) => (λ rest, s +:+ rest) <$> acc
                      | Leaf (Raw Bomb) => (λ rest, "." +:+ rest) <$> acc
                      | _ => None
                      end) (Some EmptyString) items
  | Leaf (Text s) => Some s
  | Leaf (Raw Bomb) => Some "."%string
  | Leaf (Raw (Count _)) => None
  end.

(** The loop of [render_2d_board]. *)
Fixpoint join_rows (d : nd out) (last : Z) (rows : list Z) (art : string)
    : option string :=
  match rows with
  | [] => Some art
  | row :: rest =>
      r ← find_val d [row];
      line ← join r;
      let art := (art +:+ line)%string in
      let art := if bool_decide (row ≠ last) then (art +:+ Store.newline)%string
                 else art in
      join_rows d last rest art
  end.

(** [render_2d_board(game, xray)] *)
Definition render_2d_board (g : game) (xray : bool) : option string :=
  d ← render_2d_locations g xray;
  d0 ← getitem (dimensions g) 0;
  join_rows d (d0 - 1) (range d0) EmptyString.
End render.

(** The picture of a 2-D board of [r] rows and [c] columns: at every
    position the string that its cell shows. *)
Definition picture (g : game) (xray : bool) (r c : Z) : nd out :=
  Node ((λ i, Node ((λ j, Leaf (Text (shown g xray [i; j]))) <$> range c)) <$> range r).

(** One row of the picture as a line of text. *)
Definition line (g : game) (xray : bool) (c i : Z) : string :=
  foldr (λ j rest, shown g xray [i; j] +:+ rest) EmptyString (range c).

(** What the inner loop of [render_2d_locations] finds at a position of
    the row it has just converted: [str] of the entry of the board. *)
Definition fresh_text (repr : ∀ A : Type, nd A → string) (g : game) (i j : Z) : out :=
  match find_val (board g) [i; j] with
  | Some found => Text (str repr found)
  | None => Text EmptyString
  end.

(** * Properties *)

(** ** Subscripts and ranges *)

Lemma py_index_nonneg n i :
  0 ≤ i < Z.of_nat n → py_index n i = Some (Z.to_nat i).
Proof. intros Hi. unfold py_index. rewrite bool_decide_eq_true_2; done. Qed.

Lemma py_index_lt n i k : py_index n i = Some k → (k < n)%nat.
Proof.
  unfold py_index. repeat case_bool_decide; intros [= <-]; lia.
Qed.

Lemma getitem_Some {A} (l : list A) i x :
  getitem l i = Some x ↔ ∃ k, py_index (length l) i = Some k ∧ l !! k = Some x.
Proof.
  unfold getitem. destruct (py_index (length l) i) as [k|]; simpl.
  - split; [by exists k|]. by intros (? & [= <-] & ?).
  - split; [done|]. by intros (? & ? & ?).
Qed.

Lemma getitem_nonneg {A} (l : list A) i :
  0 ≤ i < Z.of_nat (length l) → getitem l i = l !! Z.to_nat i.
Proof. intros Hi. unfold getitem. by rewrite py_index_nonneg. Qed.

Lemma setitem_Some {A} (l l' : list A) i x :
  setitem l i x = Some l' ↔ ∃ k, py_index (length l) i = Some k ∧ l' = <[k:=x]> l.
Proof.
  unfold setitem. destruct (py_index (length l) i) as [k|]; simpl.
  - split; [intros [= <-]; by exists k|]. by intros (? & [= <-] & ->).
  - split; [done|]. by intros (? & ? & ?).
Qed.

Lemma setitem_nonneg {A} (l : list A) i x :
  0 ≤ i < Z.of_nat (length l) → setitem l i x = Some (<[Z.to_nat i:=x]> l).
Proof. intros Hi. unfold setitem. by rewrite py_index_nonneg. Qed.

Lemma getitem_setitem_eq {A} (l l' : list A) i x :
  setitem l i x = Some l' → getitem l' i = Some x.
Proof.
  intros (k & Hk & ->)%setitem_Some. apply getitem_Some. exists k.
  rewrite length_insert. split; [done|].
  apply list_lookup_insert_eq. by eapply py_index_lt.
Qed.

Lemma getitem_nil {A} i : getitem (@nil A) i = None.
Proof.
  unfold getitem, py_index. simpl. repeat case_bool_decide; try lia; done.
Qed.

Lemma range2_three c : range2 (c - 1) (c + 2) = [c - 1; c; c + 1].
Proof.
  unfold range2. replace (c + 2 - (c - 1)) with 3 by lia. simpl.
  f_equal; [lia|]. f_equal; [lia|]. f_equal; lia.
Qed.

Lemma elem_of_range d i : i ∈ range d ↔ 0 ≤ i < d.
Proof.
  unfold range, range2. rewrite list_elem_of_fmap. split.
  - intros (k & -> & Hk%elem_of_seq). lia.
  - intros Hi. exists (Z.to_nat i). split; [lia|]. apply elem_of_seq. lia.
Qed.

Lemma NoDup_range d : NoDup (range d).
Proof.
  unfold range, range2. apply NoDup_fmap_2; [|apply NoDup_seq].
  intros j k Hjk. lia.
Qed.

Lemma length_range d : length (range d) = Z.to_nat d.
Proof. unfold range, range2. rewrite length_fmap, length_seq. f_equal. lia. Qed.

(** ** Coordinate geometry *)

Lemma elem_of_prepend (idx : list Z) (l : list (list Z)) c :
  c ∈ (i ← idx; cons i <$> l) ↔ ∃ i c', c = i :: c' ∧ i ∈ idx ∧ c' ∈ l.
Proof.
  rewrite list_elem_of_bind. split.
  - intros (i & (c' & -> & Hc')%list_elem_of_fmap & Hi). by exists i, c'.
  - intros (i & c' & -> & Hi & Hc'). exists i. split; [|done].
    apply list_elem_of_fmap. by exists c'.
Qed.

Lemma NoDup_prepend (idx : list Z) (l : list (list Z)) :
  NoDup idx → NoDup l → NoDup (i ← idx; cons i <$> l).
Proof.
  intros Hidx Hl. apply NoDup_bind; [|intros i _|done].
  - intros i j c _ _ (c1 & -> & _)%list_elem_of_fmap (c2 & [= -> _] & _)%list_elem_of_fmap.
    done.
  - apply NoDup_fmap_2; [|done]. by intros c1 c2 [= ->].
Qed.

Lemma elem_of_axis d c0 i : i ∈ axis d c0 ↔ 0 ≤ i < d ∧ -1 ≤ i - c0 ≤ 1.
Proof.
  unfold axis. rewrite list_elem_of_filter, !elem_of_cons, elem_of_nil. lia.
Qed.

Lemma NoDup_axis d c0 : NoDup (axis d c0).
Proof.
  apply NoDup_filter. repeat apply NoDup_cons_2; rewrite ?elem_of_cons, ?elem_of_nil;
    try lia. apply NoDup_nil_2.
Qed.

Lemma elem_of_neighbors_list dims c n :
  n ∈ neighbors_list dims c ↔ valid dims n ∧ adjacent c n.
Proof.
  unfold valid, adjacent. revert c n.
  induction dims as [|d ds IH]; intros [|c0 cs] n; simpl.
  - rewrite list_elem_of_singleton. split.
    + intros ->. split; constructor.
    + intros [Hn _]. by inversion Hn.
  - rewrite elem_of_nil. split; [done|]. intros [Hn Ha].
    inversion Hn; subst. inversion Ha.
  - rewrite elem_of_nil. split; [done|]. intros [Hn Ha].
    inversion Ha; subst. inversion Hn.
  - rewrite elem_of_prepend. split.
    + intros (i & n' & -> & [Hi Hc]%elem_of_axis & [Hv Ha]%IH).
      split; by constructor.
    + intros [(n0 & n' & Hd & Hv & ->)%Forall2_cons_inv_l Ha].
      apply Forall2_cons in Ha as [Ha0 Ha].
      exists n0, n'. split; [done|]. split.
      * by apply elem_of_axis.
      * by apply IH.
Qed.

Lemma NoDup_neighbors_list dims c : NoDup (neighbors_list dims c).
Proof.
  revert c. induction dims as [|d ds IH]; intros [|c0 cs]; simpl;
    try apply NoDup_nil_2.
  - apply NoDup_singleton.
  - apply NoDup_prepend; [apply NoDup_axis|apply IH].
Qed.

(** The generator on the doctest board, and on inputs without axes: the
    empty coordinate raises, a coordinate left over when the dimensions
    have run out raises unless all three candidate indices are negative. *)
Example get_neighbors_corner :
  get_neighbors [2; 4] [0; 3] = Some [[0; 2]; [0; 3]; [1; 2]; [1; 3]] ∧
  get_neighbors [] [] = None ∧
  get_neighbors [] [0] = None ∧
  get_neighbors [] [-5] = Some [].
Proof. by vm_compute. Qed.

(** On a coordinate with one component per axis the generator yields the
    axis-by-axis product, in this order. *)
Lemma get_neighbors_list dims c :
  length dims = length c → c ≠ [] →
  get_neighbors dims c = Some (neighbors_list dims c).
Proof.
  revert dims. induction c as [|c0 cs IH]; intros [|d ds] Hlen Hne; try done.
  simpl in Hlen. injection Hlen as Hlen.
  change (get_neighbors (d :: ds) (c0 :: cs)) with
    ((λ yielded, concat yielded) <$> mapM (λ i,
       if bool_decide (i < 0) then Some []
       else if bool_decide (d ≤ i) then Some []
       else match cs with
            | [] => Some [[i]]
            | _ => fmap (M:=list) (cons i) <$> get_neighbors ds cs
            end) (range2 (c0 - 1) (c0 + 2))).
  rewrite range2_three.
  assert (∃ l, l = neighbors_list ds cs ∧
    ∀ i : Z, match cs with
         | [] => Some [[i]]
         | _ => fmap (M:=list) (cons i) <$> get_neighbors ds cs
         end = Some (cons i <$> l)) as (l & Hl & Hbody).
  { exists (neighbors_list ds cs). split; [done|]. intros i.
    destruct cs as [|c1 cs'].
    - by destruct ds.
    - by rewrite IH. }
  simpl neighbors_list. rewrite <- Hl. clear Hl IH.
  unfold axis. rewrite !filter_cons, filter_nil. simpl mapM.
  rewrite !Hbody.
  repeat case_bool_decide; repeat case_decide; try lia; simpl;
    by rewrite ?app_nil_r.
Qed.

Lemma valid_length dims c : valid dims c → length dims = length c.
Proof. apply Forall2_length. Qed.

Lemma adjacent_refl c : adjacent c c.
Proof. unfold adjacent. induction c; constructor; [lia|done]. Qed.

Lemma adjacent_sym c n : adjacent c n → adjacent n c.
Proof.
  unfold adjacent. intros H. apply Forall2_flip.
  eapply Forall2_impl; [done|]. simpl. lia.
Qed.

(** C8. For a dimensions vector with at least one axis and a valid
    coordinate, [get_neighbors] returns, without raising, a duplicate-free
    sequence whose members are exactly the coordinates that are within the
    bounds and differ from the given one by at most 1 on every axis; the
    given coordinate is one of them. *)
Theorem get_neighbors_exact dims c :
  dims ≠ [] → valid dims c →
  ∃ l, get_neighbors dims c = Some l ∧ NoDup l ∧ c ∈ l ∧
       ∀ n, n ∈ l ↔ valid dims n ∧ adjacent c n.
Proof.
  intros Hne Hc. exists (neighbors_list dims c). split_and!.
  - apply get_neighbors_list; [by apply valid_length|].
    intros ->. apply Forall2_nil_inv_r in Hc. done.
  - apply NoDup_neighbors_list.
  - apply elem_of_neighbors_list. split; [done|apply adjacent_refl].
  - intros n. apply elem_of_neighbors_list.
Qed.

Lemma get_neighbors_exact_witness :
  ∃ l, get_neighbors [2; 4] [0; 3] = Some l ∧ NoDup l ∧ [0; 3] ∈ l ∧
       ∀ n, n ∈ l ↔ valid [2; 4] n ∧ adjacent [0; 3] n.
Proof.
  apply (get_neighbors_exact [2; 4] [0; 3]); [done|].
  unfold valid. repeat constructor; lia.
Defined.

Lemma elem_of_coords dims c : c ∈ coords dims ↔ valid dims c.
Proof.
  unfold valid. revert c. induction dims as [|d ds IH]; intros c; simpl.
  - rewrite list_elem_of_singleton. split.
    + intros ->. constructor.
    + intros H. by inversion H.
  - rewrite elem_of_prepend. split.
    + intros (i & c' & -> & Hi%elem_of_range & Hc'%IH). by constructor.
    + intros (i & c' & Hi & Hc' & ->)%Forall2_cons_inv_l.
      exists i, c'. split; [done|]. split; [by apply elem_of_range|by apply IH].
Qed.

Lemma NoDup_coords dims : NoDup (coords dims).
Proof.
  induction dims as [|d ds IH]; simpl.
  - apply NoDup_singleton.
  - apply NoDup_prepend; [apply NoDup_range|done].
Qed.

Lemma for_loop_union (body : gset (list Z) → Z → option (gset (list Z)))
    (L : list (list Z)) :
  (∀ acc x, body acc x = Some (acc ∪ list_to_set (cons x <$> L))) →
  ∀ xs acc, for_loop body xs acc = Some (acc ∪ list_to_set (i ← xs; cons i <$> L)).
Proof.
  intros Hbody. induction xs as [|x xs IH]; intros acc; simpl.
  - f_equal. set_solver.
  - rewrite Hbody. simpl. rewrite IH. f_equal.
    rewrite list_to_set_app_L. set_solver.
Qed.

(** On a dimensions vector with at least one axis [get_coordinates] builds
    the set of the coordinates that [coords] yields. *)
Lemma get_coordinates_coords d ds :
  get_coordinates (d :: ds) = Some (list_to_set (coords (d :: ds))).
Proof.
  revert d. induction ds as [|d' ds' IH]; intros d.
  - simpl. rewrite (for_loop_union _ [[]]).
    + f_equal. set_solver.
    + intros acc x. f_equal. set_solver.
  - change (get_coordinates (d :: d' :: ds')) with
      (for_loop (λ (coordinates : gset (list Z)) x,
         ys ← get_coordinates (d' :: ds');
         Some (coordinates ∪ set_map (cons x) ys)) (range d) ∅).
    rewrite IH.
    rewrite (for_loop_union _ (coords (d' :: ds'))).
    + f_equal. set_solver.
    + intros acc x. simpl. f_equal. f_equal. apply set_eq. intros c.
      rewrite elem_of_map, elem_of_list_to_set, list_elem_of_fmap.
      by setoid_rewrite elem_of_list_to_set.
Qed.

(** On the empty dimensions vector [get_coordinates] raises at
    [dimensions[0]]. *)
Lemma get_coordinates_nil : get_coordinates [] = None.
Proof. reflexivity. Qed.

(** C9. [coords] yields every valid coordinate exactly once; for the empty
    dimensions vector it yields the single empty coordinate, and otherwise
    every result is an axis-0 index put in front of a coordinate of the
    remaining axes.  [get_coordinates] collects the same coordinates into a
    set whenever there is at least one axis. *)
Theorem coords_exact :
  (∀ dims, NoDup (coords dims) ∧ ∀ c, c ∈ coords dims ↔ valid dims c) ∧
  coords [] = [[]] ∧
  (∀ d ds c, c ∈ coords (d :: ds) ↔
             ∃ i c', c = i :: c' ∧ 0 ≤ i < d ∧ c' ∈ coords ds) ∧
  (∀ d ds, get_coordinates (d :: ds) = Some (list_to_set (coords (d :: ds)))).
Proof.
  split_and!.
  - intros dims. split; [apply NoDup_coords|apply elem_of_coords].
  - reflexivity.
  - intros d ds c. simpl. rewrite elem_of_prepend.
    by setoid_rewrite elem_of_range.
  - apply get_coordinates_coords.
Qed.

(** ** Arrays of a given shape *)

Section arrays.
Context {A : Type} `{LeafSubscript A}.
Implicit Types (t : nd A) (l : list (nd A)) (c : list Z).

Lemma shaped_nil t : shaped [] t ↔ ∃ a, t = Leaf a.
Proof.
  destruct t as [a|l]; simpl; split; try done.
  - by exists a.
  - by intros [? ?].
Qed.

Lemma shaped_cons d ds t :
  shaped (d :: ds) t ↔
  ∃ l, t = Node l ∧ length l = Z.to_nat d ∧ Forall (λ t', shaped ds t') l.
Proof.
  destruct t as [a|l]; simpl.
  - split; [done|]. by intros (? & ? & _).
  - rewrite andb_True, bool_decide_spec, forallb_True. split.
    + intros [? ?]. by exists l.
    + by intros (? & [= <-] & ? & ?).
Qed.

Global Arguments shaped : simpl never.

Lemma replace_one l i v : replace (Node l) [i] v = Node <$> setitem l i v.
Proof. reflexivity. Qed.

Lemma replace_more l i rest v :
  rest ≠ [] →
  replace (Node l) (i :: rest) v =
    b ← getitem l i; b' ← replace b rest v; Node <$> setitem l i b'.
Proof. by destruct rest. Qed.

(** A valid coordinate of a shaped array addresses a leaf. *)
Lemma find_val_shaped dims t c :
  shaped dims t → valid dims c → ∃ a, find_val t c = Some (Leaf a).
Proof.
  unfold valid. revert t c. induction dims as [|d ds IH]; intros t c Ht Hc.
  - apply Forall2_nil_inv_l in Hc as ->. apply shaped_nil in Ht as [a ->].
    by exists a.
  - apply Forall2_cons_inv_l in Hc as (i & c' & Hi & Hc' & ->).
    apply shaped_cons in Ht as (l & -> & Hlen & Hl).
    destruct (lookup_lt_is_Some_2 l (Z.to_nat i)) as [b Hb]; [lia|].
    simpl. rewrite getitem_nonneg by lia. rewrite Hb. simpl.
    apply IH; [|done]. by eapply Forall_lookup_1 in Hl.
Qed.

(** Replacing the leaf at a valid coordinate of a shaped array succeeds,
    keeps the shape, stores the value there and touches no other valid
    coordinate. *)
Lemma replace_shaped dims t c a :
  dims ≠ [] → shaped dims t → valid dims c →
  ∃ t', replace t c (Leaf a) = Some t' ∧ shaped dims t' ∧
        find_val t' c = Some (Leaf a) ∧
        ∀ c', valid dims c' → c' ≠ c → find_val t' c' = find_val t c'.
Proof.
  unfold valid. revert t c. induction dims as [|d ds IH]; intros t c Hne Ht Hc; [done|].
  clear Hne.
  apply Forall2_cons_inv_l in Hc as (i & c' & Hi & Hc' & ->).
  apply shaped_cons in Ht as (l & -> & Hlen & Hl).
  destruct (lookup_lt_is_Some_2 l (Z.to_nat i)) as [b Hb]; [lia|].
  assert (shaped ds b) as Hsb by by eapply Forall_lookup_1 in Hl.
  destruct ds as [|d' ds'].
  - apply Forall2_nil_inv_l in Hc' as ->.
    rewrite replace_one, setitem_nonneg by lia. simpl.
    eexists. split; [reflexivity|]. split; [|split].
    + apply shaped_cons. eexists. split; [reflexivity|].
      rewrite length_insert. split; [done|].
      apply Forall_insert; [done|]. done.
    + simpl. rewrite getitem_nonneg by (rewrite length_insert; lia).
      rewrite list_lookup_insert_eq by lia. done.
    + intros c1 (j & c1' & Hj & Hc1' & ->)%Forall2_cons_inv_l Hneq.
      apply Forall2_nil_inv_l in Hc1' as ->. simpl.
      rewrite !getitem_nonneg by (rewrite ?length_insert; lia).
      rewrite list_lookup_insert_ne; [done|]. intros Heq.
      apply Hneq. f_equal. lia.
  - destruct (IH b c') as (b' & Hrep & Hsb' & Hget & Hother); [done..|].
    rewrite replace_more.
    2:{ intros ->. apply Forall2_nil_inv_r in Hc'. done. }
    rewrite getitem_nonneg by lia. rewrite Hb. simpl. rewrite Hrep. simpl.
    rewrite setitem_nonneg by lia. simpl.
    eexists. split; [reflexivity|]. split; [|split].
    + apply shaped_cons. eexists. split; [reflexivity|].
      rewrite length_insert. split; [done|].
      apply Forall_insert; [done|]. done.
    + simpl. rewrite getitem_nonneg by (rewrite length_insert; lia).
      rewrite list_lookup_insert_eq by lia. done.
    + intros c1 (j & c1' & Hj & Hc1' & ->)%Forall2_cons_inv_l Hneq.
      simpl. rewrite !getitem_nonneg by (rewrite ?length_insert; lia).
      destruct (decide (i = j)) as [->|Hij].
      * rewrite list_lookup_insert_eq by lia. rewrite Hb. simpl.
        apply Hother; [done|]. intros ->. done.
      * rewrite list_lookup_insert_ne; [done|]. lia.
Qed.
End arrays.

Lemma mapM_const {X B} (b : B) (xs : list X) :
  mapM (λ _, Some b) xs = Some ((λ _, b) <$> xs).
Proof. apply mapM_Some. induction xs; simpl; by constructor. Qed.

Lemma lookup_const {X B} (b x : B) (xs : list X) k :
  ((λ _, b) <$> xs) !! k = Some x → x = b.
Proof. rewrite list_lookup_fmap. destruct (xs !! k); by intros [= <-]. Qed.

Lemma Forall_const {X B} (P : B → Prop) (b : B) (xs : list X) :
  P b → Forall P ((λ _, b) <$> xs).
Proof. intros Hb. apply Forall_fmap. by apply Forall_true. Qed.

(** [new_board] builds an array of the requested shape, every leaf of
    which holds the value. *)
Lemma new_board_shaped {A} `{LeafSubscript A} dims (v : A) :
  dims ≠ [] →
  ∃ t, new_board dims v = Some t ∧ shaped dims t ∧
       ∀ c, valid dims c → find_val t c = Some (Leaf v).
Proof.
  unfold valid. induction dims as [|d ds IH]; intros Hne; [done|]. clear Hne.
  destruct ds as [|d' ds'].
  - eexists. split; [reflexivity|]. split.
    + apply shaped_cons. eexists. split; [reflexivity|].
      rewrite length_fmap, length_range. split; [done|].
      by apply Forall_const.
    + intros c (i & c' & Hi & Hc' & ->)%Forall2_cons_inv_l.
      apply Forall2_nil_inv_l in Hc' as ->. simpl.
      rewrite getitem_nonneg by (rewrite length_fmap, length_range; lia).
      destruct (lookup_lt_is_Some_2 ((λ _, Leaf v) <$> range d) (Z.to_nat i))
        as [x Hx]; [rewrite length_fmap, length_range; lia|].
      rewrite Hx. by apply lookup_const in Hx as ->.
  - destruct IH as (b & Hb & Hsb & Hfind); [done|].
    change (new_board (d :: d' :: ds') v) with
      (Node <$> mapM (λ _, new_board (d' :: ds') v) (range d)).
    rewrite Hb, mapM_const. eexists. split; [reflexivity|]. split.
    + apply shaped_cons. eexists. split; [reflexivity|].
      rewrite length_fmap, length_range. split; [done|].
      by apply Forall_const.
    + intros c (i & c' & Hi & Hc' & ->)%Forall2_cons_inv_l.
      simpl find_val.
      rewrite getitem_nonneg by (rewrite length_fmap, length_range; lia).
      destruct (lookup_lt_is_Some_2 ((λ _, b) <$> range d) (Z.to_nat i))
        as [x Hx]; [rewrite length_fmap, length_range; lia|].
      rewrite Hx. apply lookup_const in Hx as ->. simpl. by apply Hfind.
Qed.

(** ** Building a game *)

Section new_game.
Variables (dims : list Z) (bombs : list (list Z)).
Hypothesis dims_axes : dims ≠ [].

Lemma count_up_bomb t n : n ∈ bombs → count_up bombs t n = Some t.
Proof. intros Hn. unfold count_up. by rewrite bool_decide_eq_true_2. Qed.

Lemma count_up_other t n k :
  shaped dims t → valid dims n → n ∉ bombs →
  find_val t n = Some (Leaf (Count k)) →
  ∃ t', count_up bombs t n = Some t' ∧ shaped dims t' ∧
        find_val t' n = Some (Leaf (Count (k + 1))) ∧
        ∀ c, valid dims c → c ≠ n → find_val t' c = find_val t c.
Proof.
  intros Ht Hn Hnb Hk. unfold count_up.
  rewrite bool_decide_eq_false_2 by done. rewrite Hk. simpl.
  by apply replace_shaped.
Qed.

(** The inner loop adds one to every cell outside the bombs that occurs
    in the (duplicate-free) list it runs over, and changes nothing else. *)
Lemma count_up_loop ns : NoDup ns → Forall (valid dims) ns →
  ∀ t, shaped dims t → counts_outside_bombs dims bombs t →
  ∃ t', for_loop (count_up bombs) ns t = Some t' ∧ shaped dims t' ∧
        (∀ c, valid dims c → c ∈ bombs → find_val t' c = find_val t c) ∧
        (∀ c k, valid dims c → c ∉ bombs →
                find_val t c = Some (Leaf (Count k)) →
                find_val t' c =
                  Some (Leaf (Count (k + if decide (c ∈ ns) then 1 else 0)))).
Proof.
  induction 1 as [|n ns Hn Hnd IH]; intros Hval t Ht Hcnt; simpl.
  - exists t. split; [done|]. split; [done|]. split; [done|].
    intros c k _ _ ->. by rewrite Z.add_0_r.
  - apply Forall_cons in Hval as [Hvn Hval].
    destruct (decide (n ∈ bombs)) as [Hb|Hb].
    + rewrite count_up_bomb by done. simpl.
      destruct (IH Hval t Ht Hcnt) as (t' & Hloop & Ht' & Hbomb & Hother).
      exists t'. split; [done|]. split; [done|]. split; [done|].
      intros c k Hc Hcb Hk. rewrite (Hother c k) by done.
      repeat f_equal. assert (c ≠ n) by (by intros ->).
      repeat case_decide; set_solver.
    + destruct (Hcnt n Hvn Hb) as [kn Hkn].
      destruct (count_up_other t n kn) as (t1 & -> & Ht1 & Hn1 & Hother1);
        [done..|]. simpl.
      destruct (IH Hval t1 Ht1) as (t' & Hloop & Ht' & Hbomb & Hother).
      { intros c Hc Hcb. destruct (decide (c = n)) as [->|Hne].
        - by eexists.
        - rewrite Hother1 by done. by apply Hcnt. }
      exists t'. split; [done|]. split; [done|]. split.
      * intros c Hc Hcb. rewrite Hbomb by done. apply Hother1; [done|].
        by intros ->.
      * intros c k Hc Hcb Hk. destruct (decide (c = n)) as [->|Hne].
        -- rewrite (Hother n (kn + 1)) by done.
           rewrite Hkn in Hk. injection Hk as ->.
           rewrite decide_False by done.
           rewrite decide_True by apply list_elem_of_here.
           do 3 f_equal. lia.
        -- rewrite (Hother c k); [|done|done|by rewrite Hother1].
           repeat f_equal. repeat case_decide; set_solver.
Qed.

Hypothesis bombs_valid : Forall (valid dims) bombs.

Lemma placed_counts done t : placed dims bombs done t → counts_outside_bombs dims bombs t.
Proof. intros (_ & _ & Hc) c Hv Hb. eexists. by apply Hc. Qed.

Lemma place_bomb_placed done t b :
  b ∈ bombs → done ⊆ bombs → placed dims bombs done t →
  ∃ t', place_bomb dims bombs t b = Some t' ∧ placed dims bombs (done ++ [b]) t'.
Proof.
  intros Hb Hdone (Ht & Hbombs & Hcounts).
  assert (valid dims b) as Hvb by by eapply Forall_forall in bombs_valid.
  unfold place_bomb.
  rewrite get_neighbors_list; [|by apply valid_length|].
  2:{ intros ->. apply Forall2_nil_inv_r in Hvb. done. }
  simpl.
  destruct (replace_shaped dims t b Bomb) as (t1 & -> & Ht1 & Hb1 & Hother1);
    [done..|]. simpl.
  assert (Forall (valid dims) (neighbors_list dims b)) as Hnv.
  { apply Forall_forall. intros n Hn. by apply elem_of_neighbors_list in Hn as [? _]. }
  assert (counts_outside_bombs dims bombs t1) as Hc1.
  { intros c Hc Hcb. rewrite Hother1; [|done|by intros ->].
    eexists. by apply Hcounts. }
  destruct (count_up_loop _ (NoDup_neighbors_list dims b) Hnv t1 Ht1 Hc1)
    as (t2 & Hloop & Ht2 & Hbomb' & Hother').
  rewrite Hloop.
  eexists. split; [done|]. split; [done|]. split.
  - intros b' [Hb' | ->%list_elem_of_singleton]%elem_of_app.
    + assert (b' ∈ bombs) by by apply Hdone.
      assert (valid dims b') by by eapply Forall_forall in bombs_valid.
      rewrite Hbomb' by done. destruct (decide (b' = b)) as [->|Hne]; [done|].
      rewrite Hother1 by done. by apply Hbombs.
    + by rewrite Hbomb'.
  - intros c Hc Hcb.
    rewrite (Hother' c (hits dims done c)); [|done|done|].
    2:{ rewrite Hother1; [|done|by intros ->]. by apply Hcounts. }
    unfold hits. rewrite filter_app, length_app, Nat2Z.inj_add.
    repeat f_equal. rewrite filter_cons, filter_nil.
    by repeat case_decide.
Qed.

Lemma place_bombs_placed rest : ∀ done t,
  rest ⊆ bombs → done ⊆ bombs → placed dims bombs done t →
  ∃ t', for_loop (place_bomb dims bombs) rest t = Some t' ∧
        placed dims bombs (done ++ rest) t'.
Proof.
  induction rest as [|b rest IH]; intros done t Hrest Hdone Hp; simpl.
  - exists t. by rewrite app_nil_r.
  - destruct (place_bomb_placed done t b) as (t1 & -> & Hp1);
      [set_solver|done|done|]. simpl.
    destruct (IH (done ++ [b]) t1) as (t' & Hloop & Hp'); [set_solver..|done|].
    exists t'. split; [done|]. by rewrite <- app_assoc in Hp'.
Qed.

Hypothesis bombs_nodup : NoDup bombs.

(** Counting the bombs that see [c] is counting the bombs that [c] sees. *)
Lemma hits_neighbors c :
  valid dims c → c ∉ bombs →
  hits dims bombs c =
    Z.of_nat (length (filter (λ n, n ≠ c ∧ n ∈ bombs) (neighbors_list dims c))).
Proof.
  intros Hc Hcb. unfold hits. f_equal. apply Permutation_length.
  apply NoDup_Permutation.
  - by apply NoDup_filter.
  - apply NoDup_filter, NoDup_neighbors_list.
  - intros b. rewrite !list_elem_of_filter, !elem_of_neighbors_list. split.
    + intros [[_ Ha] Hb]. split_and!; [by intros ->|done| |by apply adjacent_sym].
      by eapply Forall_forall in bombs_valid.
    + intros [[_ Hb] [Hv Ha]]. split_and!; [done|by apply adjacent_sym|done].
Qed.

Lemma new_game_nd_spec :
  ∃ g, new_game_nd dims bombs = Some g ∧
       dimensions g = dims ∧ state g = Ongoing ∧ wf_game g ∧
       (∀ c, valid dims c → find_val (hidden g) c = Some (Leaf true)) ∧
       (∀ c, c ∈ bombs → find_val (board g) c = Some (Leaf Bomb)) ∧
       (∀ c, valid dims c → c ∉ bombs →
          ∃ l, get_neighbors dims c = Some l ∧
               find_val (board g) c =
                 Some (Leaf (Count (Z.of_nat
                   (length (filter (λ n, n ≠ c ∧ n ∈ bombs) l)))))).
Proof.
  unfold new_game_nd.
  destruct (new_board_shaped dims (Count 0)) as (t0 & -> & Ht0 & Hz); [done|].
  destruct (new_board_shaped dims true) as (h0 & -> & Hh0 & Hh); [done|].
  simpl.
  destruct (place_bombs_placed bombs [] t0) as (t & Hloop & Ht & Hbombs & Hcounts);
    [done|set_solver| |rewrite Hloop].
  { split; [done|]. split; [by intros b ?%elem_of_nil|].
    intros c Hc Hcb. by rewrite Hz. }
  simpl. eexists. split; [done|]. simpl. split_and!; try done.
  intros c Hc Hcb. exists (neighbors_list dims c). split.
  - apply get_neighbors_list; [by apply valid_length|].
    intros ->. apply Forall2_nil_inv_r in Hc. done.
  - rewrite Hcounts by done. by rewrite hits_neighbors.
Qed.
End new_game.

(** C7. For a dimensions vector with at least one axis and a duplicate-free
    list of valid bomb coordinates, [new_game_nd] returns a game whose state
    is ongoing, whose hidden array is true everywhere, whose bomb cells hold
    the bomb marker, and whose every other cell holds the number of bomb
    coordinates in its neighbour set: the bombs other than the cell itself
    that lie within the dimensions and differ from the cell by at most 1 on
    every axis. *)
Theorem new_game_nd_counts dims bombs :
  dims ≠ [] → NoDup bombs → Forall (valid dims) bombs →
  ∃ g, new_game_nd dims bombs = Some g ∧
       dimensions g = dims ∧ state g = Ongoing ∧ wf_game g ∧
       (∀ c, valid dims c → find_val (hidden g) c = Some (Leaf true)) ∧
       (∀ c, c ∈ bombs → find_val (board g) c = Some (Leaf Bomb)) ∧
       (∀ c, valid dims c → c ∉ bombs →
          find_val (board g) c =
            Some (Leaf (Count (Z.of_nat
              (length (filter (λ b, b ≠ c ∧ valid dims b ∧ adjacent c b) bombs)))))).
Proof.
  intros Hne Hnd Hval.
  destruct (new_game_nd_spec dims bombs) as (g & Hg & Hd & Hs & Hwf & Hh & Hb & Hcount);
    [done..|].
  exists g. split_and!; try done.
  intros c Hc Hcb. destruct (Hcount c Hc Hcb) as (l & Hl & ->).
  rewrite get_neighbors_list in Hl.
  - injection Hl as <-. do 4 f_equal. apply Permutation_length, NoDup_Permutation.
    + apply NoDup_filter, NoDup_neighbors_list.
    + by apply NoDup_filter.
    + intros b. rewrite !list_elem_of_filter, elem_of_neighbors_list. tauto.
  - by apply valid_length.
  - intros ->. apply Forall2_nil_inv_r in Hc. done.
Qed.

Lemma new_game_nd_counts_witness :
  ∃ g, new_game_nd [2; 4] [[0; 0]; [1; 0]; [1; 1]] = Some g ∧
       dimensions g = [2; 4] ∧ state g = Ongoing ∧ wf_game g ∧
       (∀ c, valid [2; 4] c → find_val (hidden g) c = Some (Leaf true)) ∧
       (∀ c, c ∈ [[0; 0]; [1; 0]; [1; 1]] → find_val (board g) c = Some (Leaf Bomb)) ∧
       (∀ c, valid [2; 4] c → c ∉ [[0; 0]; [1; 0]; [1; 1]] →
          find_val (board g) c =
            Some (Leaf (Count (Z.of_nat
              (length (filter (λ b, b ≠ c ∧ valid [2; 4] b ∧ adjacent c b)
                         [[0; 0]; [1; 0]; [1; 1]])))))).
Proof.
  apply (new_game_nd_counts [2; 4] [[0; 0]; [1; 0]; [1; 1]]).
  - done.
  - apply (bool_decide_unpack _). vm_compute. reflexivity.
  - apply (bool_decide_unpack _). vm_compute. reflexivity.
Defined.

(** The doctest of [new_game_2d]. *)
Example new_game_2d_doctest :
  new_game_2d 2 4 [[0; 0]; [1; 0]; [1; 1]] =
    Some {| dimensions := [2; 4]; board := board24;
            hidden := hidden_of [[true; true; true; true]; [true; true; true; true]];
            state := Ongoing |}.
Proof. vm_compute. reflexivity. Qed.

(** ** Digging: the terminal states and the bomb *)

(** C5. In a game whose state is defeat or victory, digging at a valid
    coordinate returns 0 and leaves the whole game as it was. *)
Theorem dig_nd_terminal g c :
  state g = Defeat ∨ state g = Victory →
  wf_game g → valid (dimensions g) c →
  dig_nd g c = Done (0, g).
Proof.
  intros Hst [Hb _] Hc. unfold dig_nd.
  destruct (find_val_shaped _ _ _ Hb Hc) as [a ->]. simpl.
  by rewrite bool_decide_eq_true_2.
Qed.

Lemma dig_nd_terminal_witness :
  dig_nd (set_state (game24 [[false; false; true; true]; [true; true; true; true]]) Defeat)
         [0; 3] =
  Done (0, set_state (game24 [[false; false; true; true]; [true; true; true; true]]) Defeat).
Proof.
  apply dig_nd_terminal.
  - by left.
  - split; vm_compute; exact I.
  - unfold valid. simpl. repeat constructor; lia.
Defined.

(** C6. In an ongoing game, digging at a valid coordinate that holds the
    bomb marker returns 1, sets the state to defeat and sets the hidden
    entry of that coordinate to false; the dimensions, the board and every
    other hidden entry stay as they were. *)
Theorem dig_nd_bomb g c :
  dimensions g ≠ [] → wf_game g → state g = Ongoing →
  valid (dimensions g) c → find_val (board g) c = Some (Leaf Bomb) →
  ∃ hid,
    dig_nd g c = Done (1, {| dimensions := dimensions g; board := board g;
                             hidden := hid; state := Defeat |}) ∧
    shaped (dimensions g) hid ∧
    find_val hid c = Some (Leaf false) ∧
    ∀ c', valid (dimensions g) c' → c' ≠ c → find_val hid c' = find_val (hidden g) c'.
Proof.
  intros Hne [_ Hh] Hst Hc Hbomb.
  destruct (replace_shaped (dimensions g) (hidden g) c false)
    as (hid & Hrep & Hshape & Hget & Hother); [done..|].
  exists hid. split; [|done].
  unfold dig_nd. rewrite Hbomb. simpl.
  rewrite bool_decide_eq_false_2 by (rewrite Hst; intros [?|?]; done).
  by rewrite Hrep.
Qed.

Lemma dig_nd_bomb_witness :
  ∃ hid,
    dig_nd (game24 [[true; false; true; true]; [true; true; true; true]]) [0; 0] =
      Done (1, {| dimensions := [2; 4]; board := board24;
                  hidden := hid; state := Defeat |}) ∧
    shaped [2; 4] hid ∧
    find_val hid [0; 0] = Some (Leaf false) ∧
    ∀ c', valid [2; 4] c' → c' ≠ [0; 0] →
          find_val hid c' =
          find_val (hidden_of [[true; false; true; true]; [true; true; true; true]]) c'.
Proof.
  apply (dig_nd_bomb (game24 [[true; false; true; true]; [true; true; true; true]]) [0; 0]).
  - done.
  - split; vm_compute; exact I.
  - done.
  - unfold valid. simpl. repeat constructor; lia.
  - reflexivity.
Defined.

(** The second doctest of [dig_2d]. *)
Example dig_2d_bomb_doctest :
  dig_2d (game24 [[true; false; true; true]; [true; true; true; true]]) 0 0 =
  Done (1, set_state (game24 [[false; false; true; true]; [true; true; true; true]]) Defeat).
Proof. vm_compute. reflexivity. Qed.

(** ** Replacing, in general *)

Section replace_facts.
Context {A : Type} `{LeafSubscript A}.
Implicit Types (t : nd A) (l : list (nd A)) (x : list Z).

(** The shapes of a successful [replace]. *)
Lemma replace_Some t x v t' :
  replace t x v = Some t' →
  ∃ l i rest k, t = Node l ∧ x = i :: rest ∧ py_index (length l) i = Some k ∧
    ((rest = [] ∧ t' = Node (<[k:=v]> l)) ∨
     (rest ≠ [] ∧ ∃ b b', l !! k = Some b ∧ replace b rest v = Some b' ∧
                           t' = Node (<[k:=b']> l))).
Proof.
  destruct x as [|i rest]; [done|]. destruct rest as [|j rest].
  - destruct t as [a|l]; [done|]. rewrite replace_one.
    intros (l' & (k & Hk & ->)%setitem_Some & ->)%fmap_Some.
    exists l, i, [], k. split_and!; try done. by left.
  - destruct t as [a|l].
    + done.
    + rewrite replace_more by done.
      intros (b & (k & Hk & Hb)%getitem_Some & Hrest)%bind_Some.
      apply bind_Some in Hrest as (b' & Hb' & Hset).
      apply fmap_Some in Hset as (l' & (k' & Hk' & ->)%setitem_Some & ->).
      rewrite Hk in Hk'. injection Hk' as <-.
      exists l, i, (j :: rest), k. split_and!; try done. right.
      split; [done|]. by exists b, b'.
Qed.

(** What was stored is what is found. *)
Lemma find_val_replace t x v t' :
  replace t x v = Some t' → find_val t' x = Some v.
Proof.
  revert t t'. induction x as [|i rest IH]; intros t t' Hrep; [done|].
  apply replace_Some in Hrep
    as (l & i' & rest' & k & -> & [= <- <-] & Hk & [[-> ->]|(Hne & b & b' & Hb & Hrep & ->)]).
  - simpl. unfold getitem. rewrite length_insert, Hk. simpl.
    rewrite list_lookup_insert_eq by by eapply py_index_lt. done.
  - simpl. unfold getitem. rewrite length_insert, Hk. simpl.
    rewrite list_lookup_insert_eq by by eapply py_index_lt. simpl.
    by eapply IH.
Qed.
End replace_facts.

(** ** The hidden array under [replace] *)

Lemma falsy_count_Node l :
  falsy_count (Node l) = ((if l is [] then 1 else 0) + falsy_sum l)%nat.
Proof. reflexivity. Qed.

Lemma falsy_sum_insert l k b b' :
  l !! k = Some b →
  (falsy_sum (<[k:=b']> l) + falsy_count b = falsy_sum l + falsy_count b')%nat.
Proof.
  revert k. induction l as [|t l IH]; intros [|k] Hb; try done; simpl in *.
  - injection Hb as ->. unfold falsy_sum. simpl. lia.
  - specialize (IH k Hb). unfold falsy_sum in *. simpl. lia.
Qed.

Lemma falsy_count_insert l k b b' :
  l !! k = Some b →
  (falsy_count (Node (<[k:=b']> l)) + falsy_count b =
   falsy_count (Node l) + falsy_count b')%nat.
Proof.
  intros Hb. rewrite !falsy_count_Node.
  pose proof (falsy_sum_insert l k b b' Hb) as Hsum.
  assert (∀ l' : list (nd bool), length l' ≠ 0%nat →
            (if l' is [] then 1%nat else 0%nat) = 0%nat) as Hind by by intros [].
  rewrite !Hind; [lia| |].
  - by destruct l.
  - rewrite length_insert. by destruct l.
Qed.

Lemma falsy_count_falsy u : truthy u = false → falsy_count u = 1%nat.
Proof. by destruct u as [[]|[|??]]. Qed.

Lemma atomic_falsy u : truthy u = false → atomic u.
Proof. by destruct u as [[]|[|??]]. Qed.

(** Replacing an entry moves the count of false entries by the difference
    between the new entry and the old one. *)
Lemma replace_falsy_count (t : nd bool) x u v t' :
  find_val t x = Some u → replace t x v = Some t' →
  (falsy_count t' + falsy_count u = falsy_count t + falsy_count v)%nat.
Proof.
  revert t t'. induction x as [|i rest IH]; intros t t' Hu Hrep; [done|].
  apply replace_Some in Hrep
    as (l & i' & rest' & k & -> & [= <- <-] & Hk & [[-> ->]|(Hne & b & b' & Hb & Hrep & ->)]).
  - simpl in Hu. unfold getitem in Hu. rewrite Hk in Hu. simpl in Hu.
    destruct (l !! k) as [b|] eqn:Hb; [|done]. simpl in Hu. injection Hu as ->.
    by apply falsy_count_insert.
  - simpl in Hu. unfold getitem in Hu. rewrite Hk in Hu. simpl in Hu.
    rewrite Hb in Hu. simpl in Hu.
    specialize (IH b b' Hu Hrep).
    pose proof (falsy_count_insert l k b b' Hb). lia.
Qed.

(** Writing [True] over an entry that has nothing below it leaves every
    entry that read [True] reading [True]. *)
Lemma replace_keeps_true (t : nd bool) x u t' c :
  find_val t x = Some u → atomic u → replace t x (Leaf true) = Some t' →
  find_val t c = Some (Leaf true) → find_val t' c = Some (Leaf true).
Proof.
  revert t t' c. induction x as [|i rest IH]; intros t t' c Hu Hat Hrep Hc; [done|].
  apply replace_Some in Hrep
    as (l & i' & rest' & k & -> & [= <- <-] & Hk & Hcases).
  destruct c as [|j c]; [done|].
  simpl in Hu, Hc. unfold getitem in Hu, Hc. rewrite Hk in Hu. simpl in Hu.
  destruct (py_index (length l) j) as [kj|] eqn:Hj; [|done]. simpl in Hc.
  assert (∀ b', find_val (Node (<[k:=b']> l)) (j :: c) =
                if decide (k = kj) then find_val b' c else find_val (Node l) (j :: c))
    as Hfind.
  { intros b'. simpl. unfold getitem. rewrite length_insert, Hj. simpl.
    case_decide as Hkj.
    - subst kj. rewrite list_lookup_insert_eq by by eapply py_index_lt. done.
    - by rewrite list_lookup_insert_ne. }
  destruct Hcases as [[-> ->]|(Hne & b & b' & Hb & Hrep & ->)];
    rewrite Hfind; case_decide as Hkj;
    try (simpl; unfold getitem; rewrite Hj; exact Hc).
  - subst kj. destruct (l !! k) as [b|]; [|done]. simpl in Hu, Hc.
    injection Hu as ->. destruct c as [|j' c]; [done|].
    destruct u as [a|lu]; simpl in Hc; [done|]. simpl in Hat. subst lu.
    by rewrite getitem_nil in Hc.
  - subst kj. rewrite Hb in Hu, Hc. simpl in Hu, Hc. by eapply IH.
Qed.

(** ** The local function [zero] *)

Lemma out_sat_impl (P Q : Z → game → Prop) (r r' e e' : Prop) o :
  (∀ n g, P n g → Q n g) → (r → r') → (e → e') →
  out_sat P r e o → out_sat Q r' e' o.
Proof. destruct o as [[n g]| |]; simpl; auto. Qed.

(** An invariant of the game that every call preserves is preserved by the
    loop over the neighbours. *)
Lemma sum_loop_sat (I : game → Prop) (r e : Prop) call ns :
  (∀ g i, I g → i ∈ ns → out_sat (λ _ g', I g') r e (call g i)) →
  ∀ total g, I g → out_sat (λ _ g', I g') r e (sum_loop call ns total g).
Proof.
  induction ns as [|i ns IH]; intros Hcall total g Hg; simpl; [done|].
  specialize (Hcall g i Hg) as Hi. specialize (Hi ltac:(left)).
  destruct (call g i) as [[n g1]| |]; simpl in *; try done.
  apply IH; [|done]. intros g2 j Hg2 Hj. apply Hcall; [done|by right].
Qed.

Lemma rehidden_refl g : rehidden g g.
Proof. unfold rehidden. by split_and!. Qed.

Lemma rehidden_trans g1 g2 g3 : rehidden g1 g2 → rehidden g2 g3 → rehidden g1 g3.
Proof.
  intros (Hd1 & Hb1 & Hs1 & Hf1 & Ht1) (Hd2 & Hb2 & Hs2 & Hf2 & Ht2).
  unfold rehidden. split_and!; try congruence; [lia|auto].
Qed.

Lemma rehidden_replace g c u hid :
  find_val (hidden g) c = Some u → atomic u →
  replace (hidden g) c (Leaf true) = Some hid →
  rehidden g (set_hidden g hid) ∧
  (falsy_count hid + falsy_count u = falsy_count (hidden g))%nat.
Proof.
  intros Hu Hat Hrep.
  pose proof (replace_falsy_count _ _ _ _ _ Hu Hrep) as Hcount. simpl in Hcount.
  split; [|lia]. unfold rehidden. simpl. split_and!; try done.
  - lia.
  - intros c' Hc'. exact (replace_keeps_true _ _ _ _ _ Hu Hat Hrep Hc').
Qed.

(** With more fuel than there are false entries, [zero] does not run out
    of fuel; when it returns it has only turned hidden entries to [True],
    and the entry it was called on reads [True] unless it was a non-empty
    list, which it leaves alone. *)
Lemma zero_spec fuel : ∀ g c,
  (falsy_count (hidden g) < fuel)%nat →
  out_sat (λ _ g', rehidden g g' ∧
                   ∀ h, find_val (hidden g) c = Some h →
                        find_val (hidden g') c = Some (if truthy h then h else Leaf true))
          True False (zero fuel g c).
Proof.
  induction fuel as [|fuel IH]; intros g c Hfuel; [lia|].
  simpl. destruct (find_val (hidden g) c) as [h|] eqn:Hh; simpl; [|done].
  destruct (truthy h) eqn:Htruthy; simpl.
  { split; [apply rehidden_refl|]. intros h' [= <-]. by rewrite Htruthy. }
  destruct (replace (hidden g) c (Leaf true)) as [hid1|] eqn:Hrep1; simpl; [|done].
  destruct (rehidden_replace g c h hid1) as [Hre1 Hcount1];
    [done|by apply atomic_falsy|done|].
  rewrite (falsy_count_falsy h) in Hcount1 by done.
  pose proof (find_val_replace _ _ _ _ Hrep1) as Hc1.
  destruct (find_val (board g) c) as [uncovered|]; simpl; [|done].
  destruct (is_zero uncovered); simpl.
  2:{ split; [done|]. intros h' [= <-]. by rewrite Htruthy. }
  destruct (get_neighbors (dimensions g) c) as [neighbors|]; simpl; [|done].
  destruct (replace hid1 c (Leaf true)) as [hid2|] eqn:Hrep2; simpl; [|done].
  destruct (rehidden_replace (set_hidden g hid1) c (Leaf true) hid2) as [Hre2 Hcount2];
    [done..|].
  simpl in Hcount2.
  pose proof (find_val_replace _ _ _ _ Hrep2) as Hc2.
  set (g2 := set_hidden (set_hidden g hid1) hid2) in *.
  assert (rehidden g g2) as Hre by by eapply rehidden_trans.
  eapply out_sat_impl; [| | |apply (sum_loop_sat (rehidden g2) True False)]; try done.
  - intros n g' Hg'. split; [by eapply rehidden_trans|].
    intros h' [= <-]. rewrite Htruthy. by apply Hg'.
  - intros g1 i Hg1 _. eapply out_sat_impl; [| | |apply (IH g1 i)]; try done.
    + intros n g' [Hg' _]. by eapply rehidden_trans.
    + destruct Hg1 as (_ & _ & _ & Hle & _). simpl in Hle. lia.
Qed.

(** On a game that satisfies the shape invariant [zero] does not raise
    when called on a valid coordinate, and it keeps the invariant. *)
Lemma zero_wf fuel : ∀ g c,
  wf_game g → dimensions g ≠ [] → valid (dimensions g) c →
  out_sat (λ _ g', wf_game g' ∧ dimensions g' = dimensions g) False True
          (zero fuel g c).
Proof.
  induction fuel as [|fuel IH]; intros g c [Hb Hh] Hne Hc; [done|].
  simpl.
  destruct (find_val_shaped _ _ _ Hh Hc) as [a ->]. simpl.
  destruct a; simpl; [done|].
  destruct (replace_shaped (dimensions g) (hidden g) c true)
    as (hid1 & -> & Hh1 & _); [done..|]. simpl.
  destruct (find_val_shaped _ _ _ Hb Hc) as [x ->].
  generalize (Leaf x). intros uncovered. simpl.
  destruct (is_zero uncovered); simpl; [|done].
  rewrite get_neighbors_list; [|by apply valid_length|].
  2:{ intros ->. apply Forall2_nil_inv_r in Hc. done. }
  simpl.
  destruct (replace_shaped (dimensions g) hid1 c true)
    as (hid2 & -> & Hh2 & _); [done..|]. simpl.
  eapply out_sat_impl;
    [| | |apply (sum_loop_sat (λ g', wf_game g' ∧ dimensions g' = dimensions g) False True)];
    try done.
  intros g1 i [Hwf1 Hd1] [Hi _]%elem_of_neighbors_list.
  eapply out_sat_impl; [| | |apply (IH g1 i)]; try done.
  - intros n g' [Hwf' Hd']. split; [done|congruence].
  - by rewrite Hd1.
  - by rewrite Hd1.
Qed.

(** ** What [dig_nd] does in general *)

(** The fuel that [dig_nd] gives to [zero] is enough: the model of
    [dig_nd] never stops for lack of fuel. *)
Lemma dig_nd_total g c : dig_nd g c ≠ Exhausted.
Proof.
  unfold dig_nd. destruct (find_val (board g) c) as [val|]; simpl; [|done].
  case_bool_decide; [done|].
  destruct val as [[|n]|l]; simpl; [| |done].
  - by destruct (replace (hidden g) c (Leaf false)).
  - destruct n as [|p|p]; simpl.
    + destruct (replace (hidden g) c (Leaf false)) as [hid|]; simpl; [|done].
      pose proof (zero_spec (S (falsy_count hid)) (set_hidden g hid) c) as Hz.
      simpl in Hz. intros Hex. rewrite Hex in Hz. apply Hz. lia.
    + by destruct (bool_decide (Z.pos p > 0)).
    + by destruct (bool_decide (Z.neg p > 0)).
Qed.

(** On a well-formed game with at least one axis, no subscript of a dig at
    a valid coordinate is out of range, and the game it leaves is
    well-formed.  The definitions put no limit on the depth of the
    recursion of [zero], where the interpreter raises [RecursionError]
    beyond its own: what is shown here is that nothing else raises. *)
Lemma dig_nd_returns g c :
  wf_game g → dimensions g ≠ [] → valid (dimensions g) c →
  ∃ n g', dig_nd g c = Done (n, g') ∧ wf_game g' ∧ dimensions g' = dimensions g.
Proof.
  intros [Hb Hh] Hne Hc. unfold dig_nd.
  destruct (find_val_shaped _ _ _ Hb Hc) as [x ->]. cbn [lift mbind outcome_bind].
  case_bool_decide; [by eexists _, _|].
  destruct (replace_shaped (dimensions g) (hidden g) c false)
    as (hid & Hrep & Hhid & _); [done..|].
  destruct x as [|[|p|p]]; rewrite ?Hrep; cbn [lift mbind outcome_bind].
  - by eexists _, _.
  - pose proof (zero_spec (S (falsy_count hid)) (set_hidden g hid) c) as Hz.
    pose proof (zero_wf (S (falsy_count hid)) (set_hidden g hid) c) as Hw.
    destruct (zero (S (falsy_count hid)) (set_hidden g hid) c) as [[n g']| |].
    + destruct Hw as [Hw Hd]; [done..|]. by exists n, g'.
    + destruct Hw; done.
    + destruct Hz. simpl. lia.
  - rewrite bool_decide_eq_true_2 by lia. by eexists _, _.
  - rewrite bool_decide_eq_false_2 by lia. by eexists _, _.
Qed.

(** Digging never changes the board or the dimensions, and the state it
    leaves is the state it found or, after a bomb, defeat: it is never
    the one that sets victory. *)
Lemma dig_nd_state g c n g' :
  dig_nd g c = Done (n, g') →
  dimensions g' = dimensions g ∧ board g' = board g ∧
  (state g' = state g ∨ state g' = Defeat ∨ state g' = Ongoing).
Proof.
  unfold dig_nd.
  destruct (find_val (board g) c) as [val|]; cbn [lift mbind outcome_bind]; [|done].
  case_bool_decide; [intros [= <- <-]; auto|].
  destruct val as [[|[|p|p]]|l]; [| | | |done].
  - destruct (replace (hidden g) c (Leaf false)); cbn [lift mbind outcome_bind]; [|done].
    intros [= <- <-]. auto.
  - destruct (replace (hidden g) c (Leaf false)) as [hid|];
      cbn [lift mbind outcome_bind]; [|done].
    pose proof (zero_spec (S (falsy_count hid)) (set_hidden g hid) c) as Hz.
    intros Hzero. rewrite Hzero in Hz.
    destruct Hz as [(Hd & Hb & Hs & _) _]; [simpl; lia|]. auto.
  - case_bool_decide; intros [= <- <-]; auto.
  - case_bool_decide; intros [= <- <-]; auto.
Qed.

Lemma dig_nd_never_wins g c n g' :
  state g = Ongoing → dig_nd g c = Done (n, g') → state g' ≠ Victory.
Proof.
  intros Hst (_ & _ & Hs)%dig_nd_state. rewrite Hst in Hs.
  destruct Hs as [->| [->| ->]]; done.
Qed.

(** Digging at a cell that holds 0 leaves that very cell hidden. *)
Lemma dig_nd_zero_hides g c n g' :
  state g = Ongoing → find_val (board g) c = Some (Leaf (Count 0)) →
  dig_nd g c = Done (n, g') →
  find_val (hidden g') c = Some (Leaf true) ∧ state g' = Ongoing.
Proof.
  intros Hst Hval. unfold dig_nd. rewrite Hval. cbn [lift mbind outcome_bind].
  rewrite bool_decide_eq_false_2 by (rewrite Hst; intros [?|?]; done).
  destruct (replace (hidden g) c (Leaf false)) as [hid|] eqn:Hrep;
    cbn [lift mbind outcome_bind]; [|done].
  pose proof (find_val_replace _ _ _ _ Hrep) as Hc.
  pose proof (zero_spec (S (falsy_count hid)) (set_hidden g hid) c) as Hz.
  intros Hzero. rewrite Hzero in Hz.
  destruct Hz as [(_ & _ & Hs & _) Hh]; [simpl; lia|].
  split; [by apply (Hh (Leaf false))|]. by rewrite Hs.
Qed.

(** Digging at a cell that holds a positive count returns 1 and leaves
    the hidden array as it was. *)
Lemma dig_nd_positive g c k :
  state g = Ongoing → find_val (board g) c = Some (Leaf (Count k)) → k > 0 →
  dig_nd g c = Done (1, set_state g Ongoing).
Proof.
  intros Hst Hval Hk. unfold dig_nd. rewrite Hval. simpl.
  rewrite bool_decide_eq_false_2 by (rewrite Hst; intros [?|?]; done).
  destruct k as [|p|p]; try lia. by rewrite bool_decide_eq_true_2 by lia.
Qed.

(** ** Where [dig_nd] departs from its documentation *)

(** C1 (not met by the code).  On the game of the first doctest of
    [dig_nd], digging at [(0, 3, 0)], a cell that holds 0, returns 8 and
    leaves the game exactly as it was: the cell dug and its seven
    neighbours are all still hidden, where the doctest shows them
    revealed. *)
Theorem dig_nd_zero_reveals_nothing :
  find_val (board game242) [0; 3; 0] = Some (Leaf (Count 0)) ∧
  dig_nd game242 [0; 3; 0] = Done (8, game242) ∧
  find_val (hidden game242) [0; 3; 0] = Some (Leaf true).
Proof. vm_compute. done. Qed.

(** The first doctest of [dig_2d]: the code returns 4, as documented, but
    leaves the hidden array and the state as they were, where the doctest
    shows the two right-hand columns revealed and the state victory. *)
Example dig_2d_zero_doctest :
  dig_2d (game24 [[true; false; true; true]; [true; true; true; true]]) 0 3 =
  Done (4, game24 [[true; false; true; true]; [true; true; true; true]]).
Proof. vm_compute. reflexivity. Qed.

(** C2 (not met by the code).  With [(0, 2)] already revealed, digging at
    its neighbour [(0, 3)], which holds 0, hides [(0, 2)] again.  And on
    the freshly built game the flood fill [zero] is entered with the dug
    cell just revealed by [dig_nd] and returns with it hidden. *)
Theorem zero_hides_again :
  (find_val (hidden_of [[true; false; false; true]; [true; true; true; true]]) [0; 2]
     = Some (Leaf false) ∧
   dig_2d (game24 [[true; false; false; true]; [true; true; true; true]]) 0 3
     = Done (3, game24 [[true; false; true; true]; [true; true; true; true]])) ∧
  (∃ g hid,
     new_game_2d 2 4 [[0; 0]; [1; 0]; [1; 1]] = Some g ∧
     replace (hidden g) [0; 3] (Leaf false) = Some hid ∧
     find_val hid [0; 3] = Some (Leaf false) ∧
     zero (S (falsy_count hid)) (set_hidden g hid) [0; 3] = Done (4, g) ∧
     find_val (hidden g) [0; 3] = Some (Leaf true)).
Proof.
  split; [by vm_compute|].
  eexists _, _. split; [by vm_compute|]. split; [by vm_compute|].
  by vm_compute.
Qed.

(** C3 (not met by the code).  With every safe cell revealed and every bomb
    hidden, a dig in the ongoing game returns with the win condition true
    and the state still ongoing. *)
Theorem dig_nd_misses_victory :
  ∃ g', dig_2d (game24 [[true; false; false; false]; [true; true; false; false]]) 0 1
          = Done (1, g') ∧
        won g' = true ∧ state g' = Ongoing.
Proof. eexists. by vm_compute. Qed.

(** C4 (not met by the code).  On the freshly built game, digging at
    [(0, 2)], which holds 1, returns 1 and leaves that cell hidden. *)
Theorem dig_nd_positive_reveals_nothing :
  ∃ g g',
    new_game_2d 2 4 [[0; 0]; [1; 0]; [1; 1]] = Some g ∧
    find_val (board g) [0; 2] = Some (Leaf (Count 1)) ∧
    dig_2d g 0 2 = Done (1, g') ∧
    find_val (hidden g') [0; 2] = Some (Leaf true).
Proof. eexists _, _. by vm_compute. Qed.

(** ** The renderers leave the game alone *)

Module StoreFacts.
Import Store.

Implicit Types (σ : gmap loc (list val)) (v : val) (l b : loc).

(** *** Rules of the program logic *)

Lemma hoare_ret {A} P (a : A) Q E :
  (∀ σ, P σ → Q a σ) → hoare P (mret a) Q E.
Proof. intros HQ σ HP. by apply HQ. Qed.

Lemma hoare_raise {A} P (Q : A → _) E :
  (∀ σ, P σ → E σ) → hoare P raise Q E.
Proof. intros HE σ HP. by apply HE. Qed.

Lemma hoare_bind {A B} P (m : M A) (f : A → M B) R Q E :
  hoare P m R E → (∀ a, hoare (R a) (f a) Q E) → hoare P (m ≫= f) Q E.
Proof.
  intros Hm Hf σ HP. unfold mbind, M_bind. specialize (Hm σ HP).
  destruct (m σ) as [[a|] σ']; [by apply Hf|done].
Qed.

Lemma hoare_conseq {A} P P' (m : M A) Q Q' E E' :
  (∀ σ, P' σ → P σ) → (∀ a σ, Q a σ → Q' a σ) → (∀ σ, E σ → E' σ) →
  hoare P m Q E → hoare P' m Q' E'.
Proof.
  intros HP HQ HE Hm σ HP'. specialize (Hm σ (HP σ HP')).
  destruct (m σ) as [[a|] σ']; auto.
Qed.

(** A loop keeps what each of its iterations keeps. *)
Lemma hoare_for_each {X} I (xs : list X) body :
  (∀ x, x ∈ xs → hoare I (body x) (λ _, I) I) →
  hoare I (for_each xs body) (λ _, I) I.
Proof.
  induction xs as [|x xs IH]; intros Hbody; simpl.
  - by apply hoare_ret.
  - eapply hoare_bind; [apply Hbody; by left|].
    intros []. apply IH. intros y Hy. apply Hbody. by right.
Qed.

(** *** Computations that only read *)

Lemma reads_ret {A} (a : A) : reads (mret a).
Proof. done. Qed.

Lemma reads_raise {A} : reads (@raise A).
Proof. done. Qed.

Lemma reads_lift {A} (o : option A) : reads (lift o).
Proof. done. Qed.

Lemma reads_read l : reads (read l).
Proof. done. Qed.

Lemma reads_bind {A B} (m : M A) (f : A → M B) :
  reads m → (∀ a, reads (f a)) → reads (m ≫= f).
Proof.
  intros Hm Hf σ. unfold mbind, M_bind. specialize (Hm σ).
  destruct (m σ) as [[a|] σ']; simpl in *; subst; [apply Hf|done].
Qed.

Lemma reads_mapM {X Y} (f : X → M Y) xs :
  (∀ x, reads (f x)) → reads (mapM f xs).
Proof.
  intros Hf. induction xs as [|x xs IH]; simpl; [apply reads_ret|].
  apply reads_bind; [done|]. intros y.
  apply reads_bind; [done|]. intros k. apply reads_ret.
Qed.

Lemma reads_subscript v i : reads (subscript v i).
Proof.
  destruct v; simpl; try done.
  apply reads_bind; [apply reads_read|]. intros vs. apply reads_lift.
Qed.

Lemma reads_find_val v c : reads (find_val v c).
Proof.
  revert v. induction c as [|i c IH]; intros v; simpl; [apply reads_ret|].
  apply reads_bind; [apply reads_subscript|done].
Qed.

Lemma reads_truthy v : reads (truthy v).
Proof.
  destruct v; simpl; try apply reads_ret.
  apply reads_bind; [apply reads_read|]. intros vs. apply reads_ret.
Qed.

Lemma reads_dims_of v : reads (dims_of v).
Proof.
  destruct v; simpl; try done.
  apply reads_bind; [apply reads_read|]. intros vs. apply reads_lift.
Qed.

Lemma reads_axis_range v k : reads (axis_range v k).
Proof.
  apply reads_bind; [apply reads_subscript|]. intros d.
  apply reads_bind; [apply reads_lift|]. intros n. apply reads_ret.
Qed.

Lemma reads_str repr v : reads (str repr v).
Proof. done. Qed.

Lemma reads_map_str repr v : reads (map_str repr v).
Proof.
  destruct v; simpl; try done.
  apply reads_bind; [apply reads_read|]. intros vs.
  apply reads_mapM. intros x.
  apply reads_bind; [apply reads_str|]. intros s. apply reads_ret.
Qed.

Lemma reads_join v : reads (join v).
Proof.
  destruct v as [| | |[|??]|]; simpl; try done.
  apply reads_bind; [apply reads_read|]. intros vs. apply reads_lift.
Qed.

Lemma reads_join_rows d last rows art : reads (join_rows d last rows art).
Proof.
  revert art. induction rows as [|row rows IH]; intros art; simpl;
    [apply reads_ret|].
  apply reads_bind; [apply reads_subscript|]. intros r.
  apply reads_bind; [apply reads_join|]. intros line. apply IH.
Qed.

(** A computation that only reads keeps every property of the store, and
    what it returns is what it computes from the store it ends in. *)
Lemma hoare_reads {A} P (m : M A) :
  reads m → hoare P m (λ a σ, P σ ∧ (m σ).1 = Some a) P.
Proof.
  intros Hm σ HP. specialize (Hm σ).
  destruct (m σ) as [[a|] σ'] eqn:Hmσ; simpl in *; subst; [|done].
  by rewrite Hmσ.
Qed.

Lemma hoare_reads_keep {A} P (m : M A) :
  reads m → hoare P m (λ _, P) P.
Proof.
  intros Hm. eapply hoare_conseq; [| | |by apply hoare_reads]; try done.
  by intros a σ [? _].
Qed.

Lemma hoare_reads_weak {A} P E (m : M A) :
  reads m → (∀ σ, P σ → E σ) → hoare P m (λ _, P) E.
Proof.
  intros Hm HE.
  apply (hoare_conseq P P m (λ _, P) (λ _, P) P E);
    [done|done|done|by apply hoare_reads_keep].
Qed.

(** *** Objects made by the renderer refer to one another *)

Lemma hoare_lift {A} P (o : option A) Q E :
  (∀ σ a, P σ → o = Some a → Q a σ) → (∀ σ, P σ → E σ) →
  hoare P (lift o) Q E.
Proof. intros HQ HE σ HP. unfold lift. destruct o; auto. Qed.

Lemma extends_refl σ0 : extends σ0 σ0.
Proof. split; [done|]. intros l vs Hl. by rewrite Hl. Qed.

Lemma extends_insert σ0 σ l vs :
  extends σ0 σ → σ0 !! l = None → Forall (fresh_val σ0) vs →
  extends σ0 (<[l:=vs]> σ).
Proof.
  intros [Hsub Hcl] Hl Hvs. split; [by apply insert_subseteq_r|].
  intros l' vs' Hl'. destruct (decide (l = l')) as [->|Hne].
  - rewrite lookup_insert_eq. by intros [= <-].
  - rewrite lookup_insert_ne by done. by apply Hcl.
Qed.

Lemma fresh_loc_None σ0 σ : σ0 ⊆ σ → σ0 !! fresh (dom σ) = None.
Proof.
  intros Hsub. eapply lookup_weaken_None; [|done].
  apply not_elem_of_dom, is_fresh.
Qed.

Lemma hoare_alloc_fresh σ0 vs :
  Forall (fresh_val σ0) vs →
  hoare (extends σ0) (alloc vs) (λ l σ, extends σ0 σ ∧ σ0 !! l = None) (extends σ0).
Proof.
  intros Hvs σ Hext. unfold alloc. simpl.
  assert (σ0 !! fresh (dom σ) = None) by (apply fresh_loc_None, Hext).
  split; [by apply extends_insert|done].
Qed.

Lemma hoare_read_fresh σ0 l :
  σ0 !! l = None →
  hoare (extends σ0) (read l)
        (λ vs σ, extends σ0 σ ∧ Forall (fresh_val σ0) vs) (extends σ0).
Proof.
  intros Hl σ Hext. unfold read. destruct (σ !! l) as [vs|] eqn:Hvs; [|done].
  split; [done|]. by eapply Hext.
Qed.

Lemma hoare_write_fresh σ0 l vs :
  σ0 !! l = None → Forall (fresh_val σ0) vs →
  hoare (extends σ0) (write l vs) (λ _, extends σ0) (extends σ0).
Proof. intros Hl Hvs σ Hext. unfold write. by apply extends_insert. Qed.

Lemma hoare_append_fresh σ0 l x :
  σ0 !! l = None → fresh_val σ0 x →
  hoare (extends σ0) (append l x) (λ _, extends σ0) (extends σ0).
Proof.
  intros Hl Hx. eapply hoare_bind; [by apply hoare_read_fresh|].
  intros vs σ [Hext Hvs]. apply hoare_write_fresh; [done| |done].
  apply Forall_app. split; [done|]. by apply Forall_singleton.
Qed.

Lemma getitem_elem_of {A} (vs : list A) i a : getitem vs i = Some a → a ∈ vs.
Proof.
  intros (k & _ & Hk)%getitem_Some. by eapply list_elem_of_lookup_2.
Qed.

Lemma hoare_subscript_fresh σ0 v i :
  fresh_val σ0 v →
  hoare (extends σ0) (subscript v i)
        (λ r σ, extends σ0 σ ∧ fresh_val σ0 r) (extends σ0).
Proof.
  intros Hv. destruct v as [z|b|s|zs|l]; simpl; try by apply hoare_raise.
  - apply hoare_lift; [|done]. intros σ a Hext (c & _ & ->)%fmap_Some. done.
  - apply hoare_lift; [|done]. intros σ a Hext (z & _ & ->)%fmap_Some. done.
  - eapply hoare_bind; [by apply hoare_read_fresh|].
    intros vs. apply hoare_lift; [|by intros σ [? _]].
    intros σ a [Hext Hvs] Ha%getitem_elem_of. split; [done|].
    by eapply Forall_forall in Hvs.
Qed.

Lemma hoare_store_item_fresh σ0 v i x :
  fresh_val σ0 v → fresh_val σ0 x →
  hoare (extends σ0) (store_item v i x) (λ _, extends σ0) (extends σ0).
Proof.
  intros Hv Hx. destruct v as [z|b|s|zs|l]; simpl; try by apply hoare_raise.
  eapply hoare_bind; [by apply hoare_read_fresh|]. intros vs.
  eapply hoare_bind.
  - apply (hoare_lift _ _ (λ vs' σ, extends σ0 σ ∧ Forall (fresh_val σ0) vs'));
      [|by intros σ [? _]].
    intros σ vs' [Hext Hvs] (k & _ & ->)%setitem_Some. split; [done|].
    by apply Forall_insert.
  - intros vs' σ [Hext Hvs']. by apply hoare_write_fresh.
Qed.

Lemma hoare_replace_fresh σ0 c : ∀ v x,
  fresh_val σ0 v → fresh_val σ0 x →
  hoare (extends σ0) (replace v c x) (λ _, extends σ0) (extends σ0).
Proof.
  induction c as [|i c IH]; intros v x Hv Hx; [by apply hoare_raise|].
  destruct c as [|j c].
  - by apply hoare_store_item_fresh.
  - change (replace v (i :: j :: c) x) with
      (b ← subscript v i; replace b (j :: c) x).
    eapply hoare_bind; [by apply hoare_subscript_fresh|].
    intros b σ [Hext Hb]. by apply IH.
Qed.

(** [new_board] makes objects that refer to one another and to the
    value it is given. *)
Lemma hoare_new_board σ0 dims x :
  fresh_val σ0 x →
  hoare (extends σ0) (new_board dims x)
        (λ r σ, extends σ0 σ ∧ fresh_val σ0 r) (extends σ0).
Proof.
  intros Hx. induction dims as [|d rest IH].
  - simpl. eapply hoare_bind; [by apply hoare_alloc_fresh|].
    intros l. apply hoare_raise. by intros σ [? _].
  - change (new_board (d :: rest) x) with
      (board ← alloc [];
       match rest with
       | [] => for_each (range d) (λ _, append board x);; mret (VRef board)
       | _ =>
           for_each (range d) (λ _, sub ← new_board rest x; append board sub);;
           mret (VRef board)
       end).
    eapply hoare_bind; [by apply hoare_alloc_fresh|].
    intros l.
    apply (hoare_conseq (λ σ, extends σ0 σ ∧ σ0 !! l = None) _ _
             (λ r σ, (extends σ0 σ ∧ σ0 !! l = None) ∧ fresh_val σ0 r) _
             (λ σ, extends σ0 σ ∧ σ0 !! l = None)); [done| | |].
    { by intros r σ [[? _] ?]. }
    { by intros σ [? _]. }
    assert (∀ body : Z → M unit,
      (∀ k, hoare (λ σ, extends σ0 σ ∧ σ0 !! l = None) (body k)
                  (λ _ σ, extends σ0 σ ∧ σ0 !! l = None)
                  (λ σ, extends σ0 σ ∧ σ0 !! l = None)) →
      hoare (λ σ, extends σ0 σ ∧ σ0 !! l = None)
            (for_each (range d) body;; mret (VRef l))
            (λ r σ, (extends σ0 σ ∧ σ0 !! l = None) ∧ fresh_val σ0 r)
            (λ σ, extends σ0 σ ∧ σ0 !! l = None)) as Hloop.
    { intros body Hbody. eapply hoare_bind.
      - apply hoare_for_each. intros k _. apply Hbody.
      - intros []. apply hoare_ret. by intros σ [? ?]. }
    destruct rest as [|d' rest']; apply Hloop; intros k σ [Hext Hl].
    + pose proof (hoare_append_fresh σ0 l x Hl Hx σ Hext) as Happ.
      destruct (append l x σ) as [[[]|] σ']; by split.
    + pose proof (IH σ Hext) as Hsub. unfold mbind, M_bind.
      destruct (new_board (d' :: rest') x σ) as [[sub|] σ1]; [|by split].
      destruct Hsub as [Hext1 Hsub].
      pose proof (hoare_append_fresh σ0 l sub Hl Hsub σ1 Hext1) as Happ.
      destruct (append l sub σ1) as [[[]|] σ']; by split.
Qed.

(** *** [render_nd] *)

Lemma hoare_render_cell repr σ0 board hidden final xray i :
  fresh_val σ0 final →
  hoare (extends σ0) (render_cell repr board hidden final xray i)
        (λ _, extends σ0) (extends σ0).
Proof.
  intros Hfinal. unfold render_cell.
  eapply hoare_bind; [apply hoare_reads_keep, reads_find_val|]. intros found.
  eapply hoare_bind; [apply hoare_reads_keep, reads_str|]. intros value.
  eapply hoare_bind.
  - instantiate (1 := λ _, extends σ0).
    destruct xray; [|by apply hoare_ret].
    case_bool_decide; by apply hoare_replace_fresh.
  - intros []. destruct xray; simpl; [by apply hoare_ret|].
    eapply hoare_bind; [apply hoare_reads_keep, reads_find_val|].
    intros hidden_value.
    destruct (eq_True hidden_value); [by apply hoare_replace_fresh|].
    case_bool_decide; by apply hoare_replace_fresh.
Qed.

Lemma hoare_render_nd repr σ0 g xray :
  hoare (extends σ0) (render_nd repr g xray)
        (λ r σ, extends σ0 σ ∧ fresh_val σ0 r) (extends σ0).
Proof.
  unfold render_nd.
  eapply hoare_bind; [apply hoare_reads_keep, reads_dims_of|]. intros dims.
  eapply hoare_bind; [by apply hoare_new_board|]. intros final.
  apply (hoare_conseq (λ σ, extends σ0 σ ∧ fresh_val σ0 final) _ _
           (λ r σ, extends σ0 σ ∧ fresh_val σ0 r) _
           (λ σ, extends σ0 σ ∧ fresh_val σ0 final)); [done|done| |].
  { by intros σ [? _]. }
  eapply hoare_bind; [apply hoare_reads_keep, reads_lift|].
  intros all_coordinates. eapply hoare_bind.
  - apply hoare_for_each. intros i _ σ [Hext Hfinal].
    pose proof (hoare_render_cell repr σ0 (board g) (hidden g) final xray i
                  Hfinal σ Hext) as Hcell.
    destruct (render_cell repr (board g) (hidden g) final xray i σ)
      as [[[]|] σ']; by split.
  - intros []. by apply hoare_ret.
Qed.

(** *** [render_2d_locations] and [render_2d_board] *)

Lemma subscript_row σ0 b row σ :
  row_ready σ0 b row σ →
  ∃ r, subscript (VRef b) row σ = (Some (VRef r), σ) ∧ σ0 !! r = None ∧ r ≠ b.
Proof.
  intros (_ & _ & vs & r & Hb & Hrow & Hr & Hne). exists r.
  split; [|done]. unfold subscript, mbind, M_bind, read, lift.
  by rewrite Hb, Hrow.
Qed.

(** Assigning to an item of the row that the copy holds at [row] is
    assigning to a new object. *)
Lemma hoare_row_item σ0 b row col x :
  hoare (row_ready σ0 b row) (r ← subscript (VRef b) row; store_item r col x)
        (λ _, row_ready σ0 b row) (row_ready σ0 b row).
Proof.
  intros σ Hready.
  destruct (subscript_row _ _ _ _ Hready) as (r & Hsub & Hr & Hne).
  unfold mbind at 1. unfold M_bind at 1. rewrite Hsub.
  unfold store_item, mbind, M_bind, read, lift, write.
  destruct (σ !! r) as [vs_r|]; [|done].
  destruct (setitem vs_r col x) as [vs'|]; [|done].
  destruct Hready as (Hsubset & Hb & vs & r0 & Hvs & Hrow & Hr0 & Hne0).
  split; [by apply insert_subseteq_r|]. split; [done|].
  exists vs, r0. by rewrite lookup_insert_ne.
Qed.

Lemma hoare_render_2d_cell σ0 b hidden xray row col :
  hoare (row_ready σ0 b row) (render_2d_cell (VRef b) hidden xray row col)
        (λ _, row_ready σ0 b row) (row_ready σ0 b row).
Proof.
  unfold render_2d_cell.
  assert (hoare (row_ready σ0 b row)
            (r ← subscript (VRef b) row; x ← subscript r col;
             if eq_str0 x
             then r ← subscript (VRef b) row; store_item r col (VStr " ")
             else mret tt)
            (λ _, row_ready σ0 b row) (row_ready σ0 b row)) as Hzero.
  { eapply hoare_bind; [apply hoare_reads_keep, reads_subscript|]. intros r.
    eapply hoare_bind; [apply hoare_reads_keep, reads_subscript|]. intros x.
    destruct (eq_str0 x); [apply hoare_row_item|by apply hoare_ret]. }
  destruct xray; [done|].
  eapply hoare_bind; [apply hoare_reads_keep, reads_subscript|]. intros hr.
  eapply hoare_bind; [apply hoare_reads_keep, reads_subscript|]. intros h.
  eapply hoare_bind; [apply hoare_reads_keep, reads_truthy|]. intros t.
  destruct t; [apply hoare_row_item|done].
Qed.

Lemma hoare_render_2d_row repr σ0 dims board hidden xray row :
  fresh_val σ0 board →
  hoare (λ σ, σ0 ⊆ σ) (render_2d_row repr dims board hidden xray row)
        (λ _ σ, σ0 ⊆ σ) (λ σ, σ0 ⊆ σ).
Proof.
  intros Hboard. unfold render_2d_row.
  eapply hoare_bind; [apply hoare_reads, reads_subscript|]. intros r.
  eapply hoare_bind.
  { apply hoare_reads_weak; [apply reads_map_str|by intros σ [? _]]. }
  intros strs.
  intros σ [Hsub Hr]. unfold mbind at 1. unfold M_bind at 1.
  unfold alloc. simpl.
  set (l := fresh (dom σ)).
  assert (σ0 !! l = None) as Hl by by apply fresh_loc_None.
  destruct board as [z|bb|s|zs|b];
    try (unfold mbind, M_bind; simpl; by apply insert_subseteq_r).
  simpl in Hboard.
  unfold subscript, mbind, M_bind, read, lift in Hr.
  destruct (σ !! b) as [vs|] eqn:Hvs; [|done]. simpl in Hr.
  assert (l ≠ b) as Hne.
  { intros Heq. apply (is_fresh (dom σ)). fold l. rewrite Heq.
    apply elem_of_dom. by exists vs. }
  apply getitem_Some in Hr as (k & Hk & _).
  unfold mbind at 1. unfold M_bind at 1.
  unfold store_item, mbind at 1. unfold M_bind at 1. unfold read.
  rewrite lookup_insert_ne by done. rewrite Hvs.
  unfold mbind at 1. unfold M_bind at 1. unfold lift, setitem.
  rewrite Hk. simpl. unfold write.
  assert (row_ready σ0 b row (<[b:=<[k:=VRef l]> vs]> (<[l:=strs]> σ))) as Hready.
  { split; [apply insert_subseteq_r; [done|]; by apply insert_subseteq_r|].
    split; [done|].
    exists (<[k:=VRef l]> vs), l. rewrite lookup_insert_eq.
    split; [done|]. split; [|done].
    apply getitem_Some. exists k. rewrite length_insert. split; [done|].
    apply list_lookup_insert_eq. by eapply py_index_lt. }
  revert Hready. generalize (<[b:=<[k:=VRef l]> vs]> (<[l:=strs]> σ)).
  clear. intros σ Hready.
  assert (hoare (row_ready σ0 b row)
            (cols ← axis_range dims 1;
             for_each cols (render_2d_cell (VRef b) hidden xray row))
            (λ _, row_ready σ0 b row) (row_ready σ0 b row)) as Htail.
  { eapply hoare_bind; [apply hoare_reads_keep, reads_axis_range|].
    intros cols. apply hoare_for_each. intros col _.
    apply hoare_render_2d_cell. }
  specialize (Htail σ Hready).
  destruct ((axis_range dims 1 ≫= _) σ) as [[[]|] σ']; apply Htail.
Qed.

Lemma hoare_slice_copy σ0 v :
  hoare (λ σ, σ0 ⊆ σ) (slice_copy v)
        (λ r σ, σ0 ⊆ σ ∧ fresh_val σ0 r) (λ σ, σ0 ⊆ σ).
Proof.
  destruct v as [z|b|s|zs|l]; simpl; try by apply hoare_raise.
  - by apply hoare_ret.
  - by apply hoare_ret.
  - eapply hoare_bind; [apply hoare_reads_keep, reads_read|]. intros vs.
    intros σ Hsub. unfold mbind, M_bind, alloc. simpl.
    split; [by apply insert_subseteq_r, Hsub; apply fresh_loc_None|].
    by apply fresh_loc_None.
Qed.

Lemma hoare_render_2d_locations repr σ0 g xray :
  hoare (λ σ, σ0 ⊆ σ) (render_2d_locations repr g xray)
        (λ r σ, σ0 ⊆ σ ∧ fresh_val σ0 r) (λ σ, σ0 ⊆ σ).
Proof.
  unfold render_2d_locations.
  eapply hoare_bind; [apply hoare_slice_copy|]. intros board.
  apply (hoare_conseq (λ σ, σ0 ⊆ σ ∧ fresh_val σ0 board) _ _
           (λ r σ, σ0 ⊆ σ ∧ fresh_val σ0 r) _
           (λ σ, σ0 ⊆ σ ∧ fresh_val σ0 board)); [done|done| |].
  { by intros σ [? _]. }
  eapply hoare_bind; [apply hoare_reads_keep, reads_axis_range|]. intros rows.
  eapply hoare_bind.
  - apply hoare_for_each. intros row _ σ [Hsub Hboard].
    pose proof (hoare_render_2d_row repr σ0 (dimensions g) board (hidden g)
                  xray row Hboard σ Hsub) as Hrow.
    destruct (render_2d_row repr (dimensions g) board (hidden g) xray row σ)
      as [[[]|] σ']; by split.
  - intros []. by apply hoare_ret.
Qed.

Lemma hoare_render_2d_board repr σ0 g xray :
  hoare (λ σ, σ0 ⊆ σ) (render_2d_board repr g xray)
        (λ _ σ, σ0 ⊆ σ) (λ σ, σ0 ⊆ σ).
Proof.
  unfold render_2d_board.
  eapply hoare_bind; [apply hoare_render_2d_locations|]. intros d.
  apply (hoare_conseq (λ σ, σ0 ⊆ σ) _ _ (λ _ σ, σ0 ⊆ σ) _ (λ σ, σ0 ⊆ σ));
    [by intros σ [? _]|done|done|].
  eapply hoare_bind; [apply hoare_reads_keep, reads_subscript|]. intros d0.
  eapply hoare_bind; [apply hoare_reads_keep, reads_lift|]. intros n.
  apply hoare_reads_keep, reads_join_rows.
Qed.

(** C10. Whatever the game, the store and the flag, each of [render_nd],
    [render_2d_locations] and [render_2d_board] ends, whether it returns or
    raises, in a store that still has every list object it started with,
    items unchanged; the array that [render_nd] or [render_2d_locations]
    returns is a list object that did not exist before. *)
Theorem render_leaves_game repr (g : game) (xray : bool) σ :
  (σ ⊆ (render_nd repr g xray σ).2 ∧
   fresh_result σ (render_nd repr g xray σ).1) ∧
  (σ ⊆ (render_2d_locations repr g xray σ).2 ∧
   fresh_result σ (render_2d_locations repr g xray σ).1) ∧
  σ ⊆ (render_2d_board repr g xray σ).2.
Proof.
  split; [|split].
  - pose proof (hoare_render_nd repr σ g xray σ (extends_refl σ)) as H.
    destruct (render_nd repr g xray σ) as [[r|] σ']; simpl.
    + destruct H as [[Hsub _] Hr]. done.
    + destruct H as [Hsub _]. done.
  - pose proof (hoare_render_2d_locations repr σ g xray σ (reflexivity σ)) as H.
    by destruct (render_2d_locations repr g xray σ) as [[r|] σ'].
  - pose proof (hoare_render_2d_board repr σ g xray σ (reflexivity σ)) as H.
    by destruct (render_2d_board repr g xray σ) as [[r|] σ'].
Qed.

(** The doctests of the renderers: the rendered array, and the board of
    the game read back from the store afterwards. *)
Example render_2d_locations_doctest :
  let σ := store24 [[true; false; false; true]; [true; true; false; true]] in
  match render_2d_locations (λ _ _, EmptyString) game24 false σ with
  | (Some v, σ') =>
      contents 2 σ' v =
        Node [Node (Leaf ∘ VStr <$> ["_"; "3"; "1"; "_"]%string);
              Node (Leaf ∘ VStr <$> ["_"; "_"; "1"; "_"]%string)] ∧
      contents 2 σ' (board game24) = contents 2 σ (board game24)
  | _ => False
  end.
Proof. vm_compute. done. Qed.

Example render_nd_doctest :
  let σ := store24 [[true; false; true; false]; [true; true; true; false]] in
  match render_nd (λ _ _, EmptyString) game24 true σ with
  | (Some v, σ') =>
      contents 2 σ' v =
        Node [Node (Leaf ∘ VStr <$> ["."; "3"; "1"; " "]%string);
              Node (Leaf ∘ VStr <$> ["."; "."; "1"; " "]%string)] ∧
      contents 2 σ' (board game24) = contents 2 σ (board game24)
  | _ => False
  end.
Proof. vm_compute. done. Qed.

Example render_2d_board_doctest :
  (render_2d_board (λ _ _, EmptyString) game24 false
     (store24 [[false; false; false; true]; [true; true; false; true]])).1 =
  Some (".31_" +:+ newline +:+ "__1_")%string.
Proof. vm_compute. reflexivity. Qed.
End StoreFacts.

(** * Further properties of the code *)

(** ** [find_val] and [replace] *)

Lemma py_index_in_range d i :
  - d ≤ i < d →
  py_index (Z.to_nat d) i =
    Some (Z.to_nat (if bool_decide (i < 0) then d + i else i)).
Proof.
  intros Hi. unfold py_index. repeat case_bool_decide; try lia; f_equal; lia.
Qed.

Lemma py_index_out_of_range d i :
  ¬ (- d ≤ i < d) → py_index (Z.to_nat d) i = None.
Proof.
  intros Hi. unfold py_index. repeat case_bool_decide; try lia; done.
Qed.

Section more_arrays.
Context {A : Type} `{LeafSubscript A}.
Implicit Types (t : nd A) (l : list (nd A)) (c : list Z).

Lemma replace_replace t c v1 v2 t1 :
  replace t c v1 = Some t1 → replace t1 c v2 = replace t c v2.
Proof.
  revert t t1. induction c as [|i rest IH]; intros t t1 Hrep; [done|].
  apply replace_Some in Hrep
    as (l & i' & rest' & k & -> & [= <- <-] & Hk & [[-> ->]|(Hne & b & b' & Hb & Hrep & ->)]).
  - rewrite !replace_one. unfold setitem. rewrite length_insert, Hk. simpl.
    by rewrite list_insert_insert_eq.
  - rewrite !replace_more by done. unfold getitem, setitem.
    rewrite length_insert, Hk. simpl.
    rewrite list_lookup_insert_eq by by eapply py_index_lt.
    rewrite Hb. simpl. rewrite (IH _ _ Hrep).
    destruct (replace b rest v2); simpl; [|done].
    by rewrite list_insert_insert_eq.
Qed.

Lemma replace_same t c v t' :
  find_val t c = Some v → replace t c v = Some t' → t' = t.
Proof.
  revert t t'. induction c as [|i rest IH]; intros t t' Hv Hrep; [done|].
  apply replace_Some in Hrep
    as (l & i' & rest' & k & -> & [= <- <-] & Hk & [[-> ->]|(Hne & b & b' & Hb & Hrep & ->)]);
    simpl in Hv; unfold getitem in Hv; rewrite Hk in Hv; simpl in Hv.
  - destruct (l !! k) as [b|] eqn:Hb; [|done]. simpl in Hv. injection Hv as ->.
    by rewrite list_insert_id.
  - rewrite Hb in Hv. simpl in Hv. rewrite (IH _ _ Hv Hrep).
    by rewrite list_insert_id.
Qed.

Lemma find_val_app t c1 c2 :
  find_val t (c1 ++ c2) = s ← find_val t c1; find_val s c2.
Proof.
  revert t. induction c1 as [|i c1 IH]; intros t; simpl; [done|].
  destruct (subscript t i) as [b|]; simpl; [apply IH|done].
Qed.

Lemma replace_app t c1 c2 v :
  c1 ≠ [] → c2 ≠ [] →
  replace t (c1 ++ c2) v = s ← find_val t c1; s' ← replace s c2 v; replace t c1 (s').
Proof.
  intros Hc1 Hc2. revert t. induction c1 as [|i c1 IH]; intros t; [done|]. clear Hc1.
  destruct t as [a|l].
  - assert (replace (Leaf a) ((i :: c1) ++ c2) v = None) as ->.
    { destruct c1, c2; done. }
    destruct (find_val (Leaf a) (i :: c1)) as [s0|]; simpl; [|done].
    destruct (replace s0 c2 v) as [s'|]; simpl; [|done].
    by destruct c1.
  - destruct c1 as [|j c1].
    + simpl app. rewrite replace_more by done. simpl find_val.
      destruct (getitem l i) as [b|]; simpl; [|done].
      by destruct (replace b c2 v) as [b'|].
    + change ((i :: j :: c1) ++ c2) with (i :: ((j :: c1) ++ c2)).
      rewrite replace_more by done.
      change (find_val (Node l) (i :: j :: c1))
        with (b ← getitem l i; find_val b (j :: c1)).
      destruct (getitem l i) as [b|] eqn:Hb; [|done].
      cbn [mbind option_bind].
      rewrite IH by done.
      destruct (find_val b (j :: c1)) as [s0|]; [|done].
      cbn [mbind option_bind].
      destruct (replace s0 c2 v) as [s'|]; [|done].
      cbn [mbind option_bind].
      rewrite replace_more by done. by rewrite Hb.
Qed.

Lemma find_val_in_range dims : ∀ t c,
  shaped dims t → in_range dims c →
  valid dims (wrap dims c) ∧ find_val t c = find_val t (wrap dims c).
Proof.
  unfold in_range, valid, wrap.
  induction dims as [|d ds IH]; intros t c Ht Hc.
  - apply Forall2_nil_inv_l in Hc as ->. by split; [constructor|].
  - apply Forall2_cons_inv_l in Hc as (i & c' & Hi & Hc' & ->).
    apply shaped_cons in Ht as (l & -> & Hlen & Hl). simpl.
    assert (0 ≤ (if bool_decide (i < 0) then d + i else i) < d) as Hw
      by (case_bool_decide; lia).
    unfold getitem. rewrite Hlen, py_index_in_range by done.
    rewrite py_index_nonneg by lia. simpl.
    destruct (l !! _) as [b|] eqn:Hb; simpl.
    + destruct (IH b c') as [Hv Hf]; [by eapply Forall_lookup_1 in Hl|done|].
      split; [by constructor|done].
    + split; [|done]. constructor; [done|].
      clear -Hc'. revert c' Hc'. induction ds as [|d' ds IHds]; intros c' Hc'.
      * apply Forall2_nil_inv_l in Hc' as ->. constructor.
      * apply Forall2_cons_inv_l in Hc' as (j & c'' & Hj & Hc'' & ->). simpl.
        constructor; [case_bool_decide; lia|by apply IHds].
Qed.

Lemma find_val_out_of_range dims : ∀ t c,
  shaped dims t → length c = length dims → ¬ in_range dims c →
  find_val t c = None ∧ ∀ v, replace t c v = None.
Proof.
  unfold in_range.
  induction dims as [|d ds IH]; intros t c Ht Hlen Hc.
  - destruct c; [|done]. destruct Hc. constructor.
  - destruct c as [|i c']; [done|]. injection Hlen as Hlen.
    apply shaped_cons in Ht as (l & -> & Hl & Hall).
    destruct (decide (- d ≤ i < d)) as [Hi|Hi].
    + assert (¬ Forall2 (λ d i, - d ≤ i < d) ds c') as Hc'
        by (intros ?; apply Hc; by constructor).
      assert (c' ≠ []) as Hne.
      { intros ->. destruct ds; [|done]. apply Hc'. constructor. }
      assert (∀ b, getitem l i = Some b →
                find_val b c' = None ∧ ∀ v, replace b c' v = None) as Hsub.
      { intros b (k & _ & Hb)%getitem_Some.
        apply IH; [by eapply Forall_lookup_1 in Hall|done..]. }
      split; [|intros v; rewrite replace_more by done];
        simpl; destruct (getitem l i) as [b|]; simpl; try done.
      * by apply Hsub.
      * by rewrite (proj2 (Hsub b eq_refl)).
    + assert (py_index (length l) i = None) as Hk
        by (rewrite Hl; by apply py_index_out_of_range).
      split.
      * simpl. unfold getitem. by rewrite Hk.
      * intros v. destruct c' as [|j c''].
        -- rewrite replace_one. unfold setitem. by rewrite Hk.
        -- rewrite replace_more by done. unfold getitem. by rewrite Hk.
Qed.
End more_arrays.

(** X1. What [replace] has stored at a coordinate is what [find_val] then
    returns for it, on any array and for any coordinate on which [replace]
    succeeds. *)
Theorem replace_then_find_val {A} `{LeafSubscript A} (t t' : nd A) c v :
  replace t c v = Some t' → find_val t' c = Some v.
Proof.
  intros Hrep. pose proof (replace_Some _ _ _ _ Hrep) as (l & i & rest & k & -> & -> & _).
  by eapply find_val_replace.
Qed.

Lemma replace_then_find_val_witness :
  find_val (Node [Node [Leaf Bomb; Leaf (Count 7)]; Node [Leaf (Count 0); Leaf Bomb]])
           [0; 1] = Some (Leaf (Count 7)).
Proof.
  apply (replace_then_find_val
           (Node [Node [Leaf Bomb; Leaf (Count 3)]; Node [Leaf (Count 0); Leaf Bomb]])).
  reflexivity.
Defined.

(** X2. On an array of the shape of the dimensions, with at least one axis,
    [replace] at a valid coordinate succeeds, returns an array of the same
    shape, and leaves the entry of every other valid coordinate as it
    was. *)
Theorem replace_touches_one {A} `{LeafSubscript A} dims (t : nd A) c a :
  dims ≠ [] → shaped dims t → valid dims c →
  ∃ t', replace t c (Leaf a) = Some t' ∧ shaped dims t' ∧
        ∀ c', valid dims c' → c' ≠ c → find_val t' c' = find_val t c'.
Proof.
  intros Hne Ht Hc.
  destruct (replace_shaped dims t c a Hne Ht Hc) as (t' & Hrep & Ht' & _ & Hother).
  by exists t'.
Qed.

Lemma replace_touches_one_witness :
  ∃ t', replace board24 [0; 3] (Leaf (Count 5)) = Some t' ∧ shaped [2; 4] t' ∧
        ∀ c', valid [2; 4] c' → c' ≠ [0; 3] → find_val t' c' = find_val board24 c'.
Proof.
  apply (replace_touches_one [2; 4] board24 [0; 3] (Count 5)).
  - done.
  - vm_compute. exact I.
  - unfold valid. repeat constructor; lia.
Defined.

(** X3. Of two [replace] calls at the same coordinate only the second
    counts, and a [replace] that stores what [find_val] found there returns
    the array unchanged. *)
Theorem replace_last_wins {A} `{LeafSubscript A} :
  (∀ (t t1 : nd A) c v1 v2,
     replace t c v1 = Some t1 → replace t1 c v2 = replace t c v2) ∧
  (∀ (t t' : nd A) c v,
     find_val t c = Some v → replace t c v = Some t' → t' = t).
Proof.
  split.
  - intros t t1 c v1 v2 Hrep. by apply (replace_replace t c v1 v2 t1).
  - intros t t' c v Hv Hrep. by eapply replace_same.
Qed.

(** X4. A coordinate can be followed in two steps: [find_val] along
    [c1 ++ c2] is [find_val] along [c1] and then along [c2], and [replace]
    along [c1 ++ c2] replaces inside the sub-array found along [c1] and
    puts the result back at [c1]. *)
Theorem coordinates_compose {A} `{LeafSubscript A} :
  (∀ (t : nd A) c1 c2,
     find_val t (c1 ++ c2) = s ← find_val t c1; find_val s c2) ∧
  (∀ (t : nd A) c1 c2 v, c1 ≠ [] → c2 ≠ [] →
     replace t (c1 ++ c2) v =
       s ← find_val t c1; s' ← replace s c2 v; replace t c1 s').
Proof.
  split.
  - intros t c1 c2. apply find_val_app.
  - intros t c1 c2 v Hc1 Hc2. by apply replace_app.
Qed.

(** X5. On an array of the shape of the dimensions and a coordinate with
    one component per axis: when every component is an index its axis
    accepts, negative ones counting from the back, [find_val] returns the
    entry of the coordinate counted from the front, which is valid; when
    some component is not, [find_val] and [replace] raise. *)
Theorem subscripts_wrap_or_raise {A} `{LeafSubscript A} dims (t : nd A) c :
  shaped dims t → length c = length dims →
  (in_range dims c →
     valid dims (wrap dims c) ∧ find_val t c = find_val t (wrap dims c)) ∧
  (¬ in_range dims c → find_val t c = None ∧ ∀ v, replace t c v = None).
Proof.
  intros Ht Hlen. split.
  - by apply find_val_in_range.
  - by apply find_val_out_of_range.
Qed.

Lemma subscripts_wrap_or_raise_witness :
  (in_range [2; 4] [-1; 3] →
     valid [2; 4] (wrap [2; 4] [-1; 3]) ∧
     find_val board24 [-1; 3] = find_val board24 (wrap [2; 4] [-1; 3])) ∧
  (¬ in_range [2; 4] [-1; 3] →
     find_val board24 [-1; 3] = None ∧ ∀ v, replace board24 [-1; 3] v = None).
Proof.
  apply (subscripts_wrap_or_raise [2; 4] board24 [-1; 3]).
  - vm_compute. exact I.
  - reflexivity.
Defined.

(** ** More geometry *)

Lemma length_prepend (idx : list Z) (l : list (list Z)) :
  length (i ← idx; cons i <$> l) = (length idx * length l)%nat.
Proof.
  induction idx as [|i idx IH]; [done|]. csimpl.
  rewrite length_app, length_fmap, IH. done.
Qed.

Lemma length_axis d c0 :
  (length (axis d c0) ≤ 3)%nat ∧ (1 ≤ c0 ≤ d - 2 → length (axis d c0) = 3%nat).
Proof.
  unfold axis. split.
  - etrans; [apply length_filter|done].
  - intros Hc. rewrite !filter_cons, filter_nil.
    repeat case_decide; try lia; done.
Qed.

Lemma length_neighbors_list dims : ∀ c,
  length c = length dims →
  (length (neighbors_list dims c) ≤ 3 ^ length dims)%nat ∧
  (Forall2 (λ d i, 1 ≤ i ≤ d - 2) dims c →
   length (neighbors_list dims c) = (3 ^ length dims)%nat).
Proof.
  induction dims as [|d ds IH]; intros [|c0 cs] Hlen; try done.
  injection Hlen as Hlen. destruct (IH cs Hlen) as [Hle Heq].
  destruct (length_axis d c0) as [Hale Haeq].
  simpl neighbors_list. rewrite length_prepend. simpl. split.
  - nia.
  - intros (Hc0 & Hcs)%Forall2_cons. rewrite Haeq, Heq by done. lia.
Qed.

Lemma length_coords dims : length (coords dims) = cells dims.
Proof.
  induction dims as [|d ds IH]; [done|]. simpl.
  by rewrite length_prepend, length_range, IH.
Qed.

(** X6. Being a neighbour is symmetric: of two valid coordinates, the
    second is among the neighbours that [get_neighbors] yields for the
    first exactly when the first is among those it yields for the
    second. *)
Theorem get_neighbors_symmetric dims c n :
  dims ≠ [] → valid dims c → valid dims n →
  ∃ lc ln, get_neighbors dims c = Some lc ∧ get_neighbors dims n = Some ln ∧
           (n ∈ lc ↔ c ∈ ln).
Proof.
  intros Hne Hc Hn.
  assert (∀ x, valid dims x → x ≠ []) as Hnil.
  { intros x Hx ->. apply Forall2_nil_inv_r in Hx. done. }
  exists (neighbors_list dims c), (neighbors_list dims n).
  rewrite !get_neighbors_list by (try apply valid_length; auto).
  split; [done|]. split; [done|].
  rewrite !elem_of_neighbors_list. split.
  - intros [_ Ha]. split; [done|by apply adjacent_sym].
  - intros [_ Ha]. split; [done|by apply adjacent_sym].
Qed.

Lemma get_neighbors_symmetric_witness :
  ∃ lc ln, get_neighbors [2; 4] [0; 3] = Some lc ∧
           get_neighbors [2; 4] [1; 2] = Some ln ∧
           ([1; 2] ∈ lc ↔ [0; 3] ∈ ln).
Proof.
  apply (get_neighbors_symmetric [2; 4] [0; 3] [1; 2]); [done|..];
    unfold valid; repeat constructor; lia.
Defined.

(** X7. For a coordinate with one component per axis, [get_neighbors]
    yields at most [3 ^ n] coordinates on [n] axes, and exactly that many
    when every component is at least 1 and at most its dimension minus
    2. *)
Theorem get_neighbors_count dims c l :
  length c = length dims → get_neighbors dims c = Some l →
  (length l ≤ 3 ^ length dims)%nat ∧
  (Forall2 (λ d i, 1 ≤ i ≤ d - 2) dims c → length l = (3 ^ length dims)%nat).
Proof.
  intros Hlen Hl.
  assert (c ≠ []) as Hne by (intros ->; by destruct dims).
  rewrite get_neighbors_list in Hl by done. injection Hl as <-.
  by apply length_neighbors_list.
Qed.

Lemma get_neighbors_count_witness :
  le (length (neighbors_list [3; 4] [1; 1])) (Nat.pow 3%nat (length [3; 4])) ∧
  (Forall2 (λ d i, 1 ≤ i ≤ d - 2) [3; 4] [1; 1] →
   length (neighbors_list [3; 4] [1; 1]) = Nat.pow 3%nat (length [3; 4])).
Proof.
  apply (get_neighbors_count [3; 4] [1; 1]); [reflexivity|].
  vm_compute. reflexivity.
Defined.

(** X8. [coords] yields as many coordinates as the board has cells, the
    product of the dimensions (an axis of non-positive length counting as
    empty), and the set that [get_coordinates] builds has that many
    elements. *)
Theorem coordinates_count :
  (∀ dims, length (coords dims) = cells dims) ∧
  (∀ d ds, size <$> get_coordinates (d :: ds) = Some (cells (d :: ds))).
Proof.
  split; [apply length_coords|]. intros d ds.
  rewrite get_coordinates_coords. cbn [fmap option_fmap option_map]. f_equal.
  rewrite size_list_to_set by apply NoDup_coords. apply length_coords.
Qed.

(** ** More about building a game *)

Lemma for_loop_inv {S X} (I : S → Prop) (body : S → X → option S) l :
  (∀ s x s', x ∈ l → I s → body s x = Some s' → I s') →
  ∀ s s', I s → for_loop body l s = Some s' → I s'.
Proof.
  induction l as [|x l IH]; intros Hbody s s' Hs; simpl.
  - by intros [= <-].
  - destruct (body s x) as [s1|] eqn:Hx; simpl; [|done].
    apply IH; [|by eapply Hbody; [left|..]].
    intros s2 y s3 Hy. apply Hbody. by right.
Qed.

Lemma replace_keeps_shape {A} `{LeafSubscript A} dims : ∀ (t t' : nd A) c a,
  shaped dims t → length c = length dims →
  replace t c (Leaf a) = Some t' → shaped dims t'.
Proof.
  induction dims as [|d ds IH]; intros t t' c a Ht Hlen Hrep.
  - by destruct c.
  - apply replace_Some in Hrep
      as (l & i & rest & k & -> & -> & Hk & [[-> ->]|(Hne & b & b' & Hb & Hrep & ->)]);
      injection Hlen as Hlen;
      apply shaped_cons in Ht as (l' & [= <-] & Hl & Hall);
      apply shaped_cons; eexists; (split; [reflexivity|]);
      rewrite length_insert; (split; [done|]); apply Forall_insert; try done.
    + by destruct ds.
    + eapply IH; [|done..]. by eapply Forall_lookup_1 in Hall.
Qed.

Lemma count_up_keeps_shape dims bombs t n t' :
  shaped dims t → valid dims n → count_up bombs t n = Some t' → shaped dims t'.
Proof.
  intros Ht Hn. unfold count_up. case_bool_decide; [by intros [= <-]|].
  destruct (find_val t n) as [[[|k]|]|]; simpl; try done.
  apply replace_keeps_shape; [done|]. symmetry. by apply valid_length.
Qed.

Lemma place_bomb_keeps_shape dims bombs t b t' :
  shaped dims t → length b = length dims →
  place_bomb dims bombs t b = Some t' → shaped dims t'.
Proof.
  intros Ht Hlen. unfold place_bomb.
  destruct (get_neighbors dims b) as [nl|] eqn:Hnl; simpl; [|done].
  destruct (replace t b (Leaf Bomb)) as [t1|] eqn:Hrep; simpl; [|done].
  assert (b ≠ []) as Hne by (intros ->; by destruct dims).
  rewrite get_neighbors_list in Hnl by done. injection Hnl as <-.
  apply (for_loop_inv (λ t, shaped dims t)).
  - intros s n s' [Hn _]%elem_of_neighbors_list Hs. by apply count_up_keeps_shape.
  - by eapply replace_keeps_shape.
Qed.

Lemma place_bombs_out_of_range dims bombs rest : ∀ t,
  shaped dims t →
  Forall (λ b, length b = length dims) rest →
  Exists (λ b, ¬ in_range dims b) rest →
  for_loop (place_bomb dims bombs) rest t = None.
Proof.
  induction rest as [|b rest IH]; intros t Ht Hlen Hbad; [by inversion Hbad|].
  apply Forall_cons in Hlen as [Hb Hlen]. simpl.
  destruct (place_bomb dims bombs t b) as [t1|] eqn:Hplace; simpl; [|done].
  apply IH; [by eapply place_bomb_keeps_shape|done|].
  apply Exists_cons in Hbad as [Hbad|Hbad]; [|done].
  exfalso. unfold place_bomb in Hplace.
  destruct (get_neighbors dims b); simpl in Hplace; [|done].
  destruct (find_val_out_of_range dims t b Ht Hb Hbad) as [_ Hrep].
  by rewrite Hrep in Hplace.
Qed.

(** X9. A bomb coordinate that is listed more than once counts once for
    every time it is listed: for any list of valid bomb coordinates,
    duplicates or not, [new_game_nd] returns a game in which every listed
    coordinate holds the bomb marker and every other cell holds the number
    of entries of the list that are its neighbours. *)
Theorem new_game_nd_counts_entries dims bombs :
  dims ≠ [] → Forall (valid dims) bombs →
  ∃ g, new_game_nd dims bombs = Some g ∧
       (∀ b, b ∈ bombs → find_val (board g) b = Some (Leaf Bomb)) ∧
       (∀ c, valid dims c → c ∉ bombs →
          find_val (board g) c =
            Some (Leaf (Count (Z.of_nat (length (filter (λ b, adjacent b c) bombs)))))).
Proof.
  intros Hne Hval. unfold new_game_nd.
  destruct (new_board_shaped dims (Count 0)) as (t0 & -> & Ht0 & Hz); [done|].
  destruct (new_board_shaped dims true) as (h0 & -> & Hh0 & Hh); [done|].
  simpl.
  destruct (place_bombs_placed dims bombs Hne Hval bombs [] t0)
    as (t & Hloop & Ht & Hbombs & Hcounts); [done|set_solver| |].
  { split; [done|]. split; [by intros b ?%elem_of_nil|].
    intros c Hc Hcb. by rewrite Hz. }
  rewrite Hloop. simpl. eexists. split; [done|]. simpl. split; [done|].
  intros c Hc Hcb. rewrite Hcounts by done. unfold hits. simpl app.
  do 5 f_equal. apply list_filter_iff. intros b.
  rewrite elem_of_neighbors_list. tauto.
Qed.

Lemma new_game_nd_counts_entries_witness :
  ∃ g, new_game_nd [2; 4] [[0; 0]; [0; 0]] = Some g ∧
       (∀ b, b ∈ [[0; 0]; [0; 0]] → find_val (board g) b = Some (Leaf Bomb)) ∧
       (∀ c, valid [2; 4] c → c ∉ [[0; 0]; [0; 0]] →
          find_val (board g) c =
            Some (Leaf (Count (Z.of_nat
              (length (filter (λ b, adjacent b c) [[0; 0]; [0; 0]])))))).
Proof.
  apply (new_game_nd_counts_entries [2; 4] [[0; 0]; [0; 0]]); [done|].
  apply (bool_decide_unpack _). vm_compute. reflexivity.
Defined.

(** X10. When every bomb coordinate has one component per axis and one of
    them has a component that its axis does not accept as an index,
    [new_game_nd] raises. *)
Theorem new_game_nd_out_of_range dims bombs :
  dims ≠ [] →
  Forall (λ b, length b = length dims) bombs →
  Exists (λ b, ¬ in_range dims b) bombs →
  new_game_nd dims bombs = None.
Proof.
  intros Hne Hlen Hbad. unfold new_game_nd.
  destruct (new_board_shaped dims (Count 0)) as (t0 & -> & Ht0 & _); [done|].
  destruct (new_board_shaped dims true) as (h0 & -> & _); [done|].
  simpl. by rewrite place_bombs_out_of_range.
Qed.

Lemma new_game_nd_out_of_range_witness :
  new_game_nd [2; 4] [[0; 0]; [2; 0]] = None.
Proof.
  apply new_game_nd_out_of_range.
  - done.
  - by repeat constructor.
  - apply (bool_decide_unpack _). vm_compute. reflexivity.
Defined.

(** ** More about digging *)

Lemma sum_loop_ones (call : game → list Z → outcome (Z * game)) g ns :
  (∀ i, i ∈ ns → call g i = Done (1, g)) →
  ∀ total, sum_loop call ns total g = Done (total + Z.of_nat (length ns), g).
Proof.
  induction ns as [|i ns IH]; intros Hcall total; simpl.
  - by rewrite Z.add_0_r.
  - rewrite Hcall by left. simpl. rewrite IH by (intros j Hj; apply Hcall; by right).
    do 2 f_equal. lia.
Qed.

Lemma set_hidden_same g : set_hidden g (hidden g) = g.
Proof. by destruct g. Qed.

(** On a well-formed game with every cell hidden, [dig_nd] at a cell that
    holds 0 counts the neighbours and leaves the game as it was. *)
Lemma dig_nd_zero_all_hidden g c :
  wf_game g → dimensions g ≠ [] → state g = Ongoing →
  (∀ c', valid (dimensions g) c' → find_val (hidden g) c' = Some (Leaf true)) →
  valid (dimensions g) c → find_val (board g) c = Some (Leaf (Count 0)) →
  dig_nd g c = Done (Z.of_nat (length (neighbors_list (dimensions g) c)), g).
Proof.
  intros [Hb Hh] Hne Hst Hall Hc Hval.
  unfold dig_nd. rewrite Hval. cbn [lift mbind outcome_bind].
  rewrite bool_decide_eq_false_2 by (rewrite Hst; intros [?|?]; done).
  destruct (replace_shaped (dimensions g) (hidden g) c false)
    as (hid & Hrep & Hhid & Hhc & _); [done..|].
  rewrite Hrep. cbn [lift mbind outcome_bind].
  assert (replace hid c (Leaf true) = Some (hidden g)) as Hback.
  { rewrite (replace_replace _ _ _ (Leaf true) _ Hrep).
    destruct (replace_shaped (dimensions g) (hidden g) c true)
      as (h' & Hrep' & _); [done..|].
    rewrite Hrep'. f_equal. eapply replace_same; [|done]. by apply Hall. }
  assert (replace (hidden g) c (Leaf true) = Some (hidden g)) as Hagain.
  { destruct (replace_shaped (dimensions g) (hidden g) c true)
      as (h' & Hrep' & _); [done..|].
    rewrite Hrep'. f_equal. eapply replace_same; [|done]. by apply Hall. }
  pose proof (replace_falsy_count _ _ _ _ _ (Hall c Hc) Hrep) as Hcount.
  simpl in Hcount.
  destruct (falsy_count hid) as [|fuel] eqn:Hfuel; [lia|].
  change (zero (S (S fuel)) (set_hidden g hid) c) with
    (h ← lift (find_val hid c);
     if truthy h then Done (0 + 1, set_hidden g hid)
     else
       hid1 ← lift (replace hid c (Leaf true));
       let g1 := set_hidden (set_hidden g hid) hid1 in
       uncovered ← lift (find_val (board g) c);
       if is_zero uncovered then
         neighbors ← lift (get_neighbors (dimensions g) c);
         hid2 ← lift (replace hid1 c (Leaf true));
         sum_loop (zero (S fuel)) neighbors 0 (set_hidden g1 hid2)
       else Done (0, g1)).
  rewrite Hhc. cbn [lift mbind outcome_bind truthy].
  rewrite Hback. cbn [lift mbind outcome_bind].
  rewrite Hval. cbn [lift mbind outcome_bind is_zero].
  rewrite get_neighbors_list; [|by apply valid_length|].
  2:{ intros ->. apply Forall2_nil_inv_r in Hc. done. }
  cbn [lift mbind outcome_bind]. rewrite Hagain. cbn [lift mbind outcome_bind].
  assert (set_hidden (set_hidden (set_hidden g hid) (hidden g)) (hidden g) = g)
    as -> by by destruct g.
  rewrite sum_loop_ones; [done|].
  intros i [Hi _]%elem_of_neighbors_list. simpl.
  by rewrite (Hall i Hi).
Qed.

(** X11. On a well-formed game with at least one axis, in any state, a
    call of [dig_nd] at a valid coordinate that returns leaves a
    well-formed game with the same dimensions and the same board. *)
Theorem dig_nd_keeps_shape g c n g' :
  wf_game g → dimensions g ≠ [] → valid (dimensions g) c →
  dig_nd g c = Done (n, g') →
  wf_game g' ∧ dimensions g' = dimensions g ∧ board g' = board g.
Proof.
  intros Hwf Hne Hc Hdig.
  destruct (dig_nd_returns g c Hwf Hne Hc) as (n0 & g0 & Hdig0 & Hwf' & Hd).
  rewrite Hdig in Hdig0. injection Hdig0 as <- <-.
  split_and!; try done.
  by apply dig_nd_state in Hdig as (_ & ? & _).
Qed.

Lemma dig_nd_keeps_shape_witness :
  ∃ n g', dig_nd game242 [0; 0; 1] = Done (n, g') ∧ state g' = Defeat ∧
          wf_game g' ∧ dimensions g' = dimensions game242 ∧ board g' = board game242.
Proof.
  eexists _, _. split; [vm_compute; reflexivity|]. split; [reflexivity|].
  apply (dig_nd_keeps_shape game242 [0; 0; 1] 1).
  - split; vm_compute; exact I.
  - done.
  - unfold valid. simpl. repeat constructor; lia.
  - vm_compute. reflexivity.
Defined.

(** X12. Whatever the game and the coordinate, a call of [dig_nd] that
    returns has changed neither the dimensions nor the board, and has
    changed the state only if it dug a bomb, and then to defeat. *)
Theorem dig_nd_changes_state_on_bomb_only g c n g' :
  dig_nd g c = Done (n, g') →
  dimensions g' = dimensions g ∧ board g' = board g ∧
  (state g' = state g ∨
   state g' = Defeat ∧ find_val (board g) c = Some (Leaf Bomb)).
Proof.
  intros Hdig. pose proof (dig_nd_state _ _ _ _ Hdig) as (Hd & Hb & _).
  split; [done|]. split; [done|]. revert Hdig. unfold dig_nd.
  destruct (find_val (board g) c) as [val|]; cbn [lift mbind outcome_bind]; [|done].
  case_bool_decide as Hterm; [intros [= <- <-]; auto|].
  assert (state g = Ongoing) as Hst by (destruct (state g); tauto).
  destruct val as [[|[|p|p]]|l]; [| | | |done].
  - destruct (replace (hidden g) c (Leaf false));
      cbn [lift mbind outcome_bind]; [|done].
    intros [= <- <-]. auto.
  - destruct (replace (hidden g) c (Leaf false)) as [hid|];
      cbn [lift mbind outcome_bind]; [|done].
    pose proof (zero_spec (S (falsy_count hid)) (set_hidden g hid) c) as Hz.
    intros Hzero. rewrite Hzero in Hz.
    destruct Hz as [(_ & _ & Hs & _) _]; [simpl; lia|]. auto.
  - case_bool_decide; intros [= <- <-]; simpl; auto.
  - case_bool_decide; intros [= <- <-]; auto.
Qed.

Lemma dig_nd_changes_state_on_bomb_only_witness :
  dimensions (set_state (game24 [[false; false; true; true]; [true; true; true; true]]) Defeat)
    = dimensions (game24 [[true; false; true; true]; [true; true; true; true]]) ∧
  board (set_state (game24 [[false; false; true; true]; [true; true; true; true]]) Defeat)
    = board (game24 [[true; false; true; true]; [true; true; true; true]]) ∧
  (state (set_state (game24 [[false; false; true; true]; [true; true; true; true]]) Defeat)
     = state (game24 [[true; false; true; true]; [true; true; true; true]]) ∨
   state (set_state (game24 [[false; false; true; true]; [true; true; true; true]]) Defeat)
     = Defeat ∧
   find_val (board (game24 [[true; false; true; true]; [true; true; true; true]])) [0; 0]
     = Some (Leaf Bomb)).
Proof.
  apply (dig_nd_changes_state_on_bomb_only _ [0; 0] 1).
  vm_compute. reflexivity.
Defined.

(** X13. The recursion of the flood fill ends on every game, well-formed
    or not: a call of [zero] that goes past its first test turns one false
    entry of the hidden array to [True] and no call makes an entry false,
    so the depth of the recursion is at most the number of false entries;
    with that much fuel [zero] does not run out, and [dig_nd], which gives
    it that much, never does. *)
Theorem flood_fill_terminates :
  (∀ fuel g c, (falsy_count (hidden g) < fuel)%nat → zero fuel g c ≠ Exhausted) ∧
  (∀ g c, dig_nd g c ≠ Exhausted).
Proof.
  split; [|apply dig_nd_total].
  intros fuel g c Hfuel Hex. pose proof (zero_spec fuel g c Hfuel) as Hz.
  by rewrite Hex in Hz.
Qed.

(** X14. Once a bomb has been dug the game is over: on a well-formed
    ongoing game, [dig_nd] at a bomb returns 1, and in the game it leaves
    [dig_nd] at any valid coordinate returns 0 and changes nothing. *)
Theorem dig_nd_after_bomb g c c' :
  wf_game g → dimensions g ≠ [] → state g = Ongoing →
  valid (dimensions g) c → find_val (board g) c = Some (Leaf Bomb) →
  valid (dimensions g) c' →
  ∃ g1, dig_nd g c = Done (1, g1) ∧ dig_nd g1 c' = Done (0, g1).
Proof.
  intros [Hb Hh] Hne Hst Hc Hbomb Hc'.
  destruct (replace_shaped (dimensions g) (hidden g) c false)
    as (hid & Hrep & _); [done..|].
  exists (set_state (set_hidden g hid) Defeat). split.
  - unfold dig_nd. rewrite Hbomb. cbn [lift mbind outcome_bind].
    rewrite bool_decide_eq_false_2 by (rewrite Hst; intros [?|?]; done).
    by rewrite Hrep.
  - unfold dig_nd. cbn [board set_state set_hidden state].
    destruct (find_val_shaped _ _ _ Hb Hc') as [a ->].
    cbn [lift mbind outcome_bind].
    by rewrite bool_decide_eq_true_2 by by left.
Qed.

Lemma dig_nd_after_bomb_witness :
  ∃ g1, dig_nd (game24 [[true; false; true; true]; [true; true; true; true]]) [0; 0]
          = Done (1, g1) ∧
        dig_nd g1 [0; 3] = Done (0, g1).
Proof.
  apply dig_nd_after_bomb.
  - split; vm_compute; exact I.
  - done.
  - done.
  - unfold valid. simpl. repeat constructor; lia.
  - reflexivity.
  - unfold valid. simpl. repeat constructor; lia.
Defined.

(** X15. On a well-formed game, in any state, even a finished one,
    [dig_nd] raises when the coordinate has one component per axis and one
    of them is not an index its axis accepts. *)
Theorem dig_nd_out_of_range g c :
  wf_game g → length c = length (dimensions g) → ¬ in_range (dimensions g) c →
  dig_nd g c = Raised.
Proof.
  intros [Hb _] Hlen Hbad. unfold dig_nd.
  destruct (find_val_out_of_range _ _ _ Hb Hlen Hbad) as [-> _]. done.
Qed.

Lemma dig_nd_out_of_range_witness :
  dig_nd (set_state (game24 [[false; false; true; true]; [true; true; true; true]]) Victory)
         [0; 4] = Raised.
Proof.
  apply dig_nd_out_of_range.
  - split; vm_compute; exact I.
  - reflexivity.
  - apply (bool_decide_unpack _). vm_compute. reflexivity.
Defined.

(** X16. No dig at a safe cell reveals anything: on a well-formed ongoing
    game, after a call of [dig_nd] at a valid coordinate that holds a count
    has returned, every valid coordinate that was hidden before is still
    hidden. *)
Theorem dig_nd_safe_reveals_nothing g c k n g' :
  wf_game g → dimensions g ≠ [] → state g = Ongoing →
  valid (dimensions g) c → find_val (board g) c = Some (Leaf (Count k)) →
  dig_nd g c = Done (n, g') →
  ∀ c', valid (dimensions g) c' →
        find_val (hidden g) c' = Some (Leaf true) →
        find_val (hidden g') c' = Some (Leaf true).
Proof.
  intros Hwf Hne Hst Hc Hval Hdig c' Hc' Hhid.
  destruct Hwf as [Hb Hh].
  destruct (decide (k = 0)) as [->|Hk].
  - destruct (decide (c' = c)) as [->|Hcc].
    { by eapply dig_nd_zero_hides. }
    revert Hdig. unfold dig_nd. rewrite Hval. cbn [lift mbind outcome_bind].
    rewrite bool_decide_eq_false_2 by (rewrite Hst; intros [?|?]; done).
    destruct (replace_shaped (dimensions g) (hidden g) c false)
      as (hid & Hrep & _ & _ & Hother); [done..|].
    rewrite Hrep. cbn [lift mbind outcome_bind].
    pose proof (zero_spec (S (falsy_count hid)) (set_hidden g hid) c) as Hz.
    intros Hzero. rewrite Hzero in Hz.
    destruct Hz as [(_ & _ & _ & _ & Hkeep) _]; [simpl; lia|].
    apply Hkeep. simpl. by rewrite Hother.
  - revert Hdig. unfold dig_nd. rewrite Hval. cbn [lift mbind outcome_bind].
    rewrite bool_decide_eq_false_2 by (rewrite Hst; intros [?|?]; done).
    destruct k as [|p|p]; [done| |].
    + case_bool_decide; intros [= <- <-]; done.
    + case_bool_decide; intros [= <- <-]; done.
Qed.

Lemma dig_nd_safe_reveals_nothing_witness :
  ∃ n g', dig_nd game242 [0; 3; 0] = Done (n, g') ∧
          ∀ c', valid (dimensions game242) c' →
                find_val (hidden game242) c' = Some (Leaf true) →
                find_val (hidden g') c' = Some (Leaf true).
Proof.
  eexists _, _. split; [vm_compute; reflexivity|].
  apply (dig_nd_safe_reveals_nothing game242 [0; 3; 0] 0 8).
  - split; vm_compute; exact I.
  - done.
  - done.
  - unfold valid. simpl. repeat constructor; lia.
  - reflexivity.
  - vm_compute. reflexivity.
Defined.

(** X17. A freshly built game is left exactly as built by a dig at any
    cell that is not a bomb: for a dimensions vector with at least one
    axis and a duplicate-free list of valid bombs, [dig_nd] on the game
    that [new_game_nd] returns, at a valid coordinate that is not a bomb,
    returns that same game, with 1 when the cell has a bomb next to it and
    with the number of its neighbours, itself included, when it has none. *)
Theorem dig_nd_on_new_game dims bombs c :
  dims ≠ [] → NoDup bombs → Forall (valid dims) bombs →
  valid dims c → c ∉ bombs →
  ∃ g l k, new_game_nd dims bombs = Some g ∧
           get_neighbors dims c = Some l ∧
           find_val (board g) c = Some (Leaf (Count k)) ∧
           dig_nd g c = Done (if bool_decide (k = 0) then Z.of_nat (length l) else 1, g).
Proof.
  intros Hne Hnd Hval Hc Hcb.
  destruct (new_game_nd_spec dims bombs Hne Hval Hnd)
    as (g & Hg & Hd & Hst & Hwf & Hhid & _ & Hcount).
  destruct (Hcount c Hc Hcb) as (l & Hl & Hk).
  exists g, l, (Z.of_nat (length (filter (λ n, n ≠ c ∧ n ∈ bombs) l))).
  split; [done|]. split; [done|]. split; [done|].
  subst dims. case_bool_decide as Hzero.
  - rewrite Hzero in Hk. rewrite dig_nd_zero_all_hidden by done.
    rewrite get_neighbors_list in Hl; [|by apply valid_length|].
    2:{ intros ->. apply Forall2_nil_inv_r in Hc. done. }
    by injection Hl as <-.
  - rewrite (dig_nd_positive g c _ Hst Hk) by lia. by destruct g; simplify_eq/=.
Qed.

Lemma dig_nd_on_new_game_witness :
  ∃ g l k, new_game_nd [2; 4] [[0; 0]; [1; 0]; [1; 1]] = Some g ∧
           get_neighbors [2; 4] [0; 3] = Some l ∧
           find_val (board g) [0; 3] = Some (Leaf (Count k)) ∧
           dig_nd g [0; 3] =
             Done (if bool_decide (k = 0) then Z.of_nat (length l) else 1, g).
Proof.
  apply (dig_nd_on_new_game [2; 4] [[0; 0]; [1; 0]; [1; 1]] [0; 3]).
  - done.
  - apply (bool_decide_unpack _). vm_compute. reflexivity.
  - apply (bool_decide_unpack _). vm_compute. reflexivity.
  - unfold valid. repeat constructor; lia.
  - apply (bool_decide_unpack _). vm_compute. reflexivity.
Defined.

(** ** What the renderers return *)

Lemma str_symbol repr b :
  (if bool_decide (str repr (Leaf b) = "0"%string) then " "%string
   else str repr (Leaf b)) = symbol b.
Proof.
  destruct b as [|n]; simpl; [done|].
  destruct (decide (n = 0)) as [->|Hn].
  - done.
  - rewrite !bool_decide_eq_false_2; [done..|].
    intros Heq. apply Hn. by apply (inj pretty).
Qed.

(** On a well-formed game the body of the loop of [render_nd] stores what
    the cell shows at the position of the cell. *)
Lemma render_cell_replace repr g xray final i :
  wf_game g → valid (dimensions g) i → dimensions g ≠ [] →
  shaped (dimensions g) final →
  render_cell repr g xray final i = replace final i (Leaf (shown g xray i)).
Proof.
  intros [Hb Hh] Hi Hne Hfinal. unfold render_cell, shown.
  destruct (find_val_shaped _ _ _ Hb Hi) as [b ->].
  destruct (find_val_shaped _ _ _ Hh Hi) as [h ->].
  cbn [mbind option_bind]. destruct xray; cbn [negb andb eq_True].
  - rewrite <- (str_symbol repr b).
    case_bool_decide; by destruct (replace final i _).
  - cbn [mbind option_bind]. destruct h; [done|].
    rewrite <- (str_symbol repr b). by case_bool_decide.
Qed.

(** A loop that stores [f i] at every coordinate [i] of a duplicate-free
    list of valid coordinates. *)
Lemma fill_loop {A} `{LeafSubscript A} dims (body : nd A → list Z → option (nd A))
    (f : list Z → A) xs :
  dims ≠ [] → NoDup xs → Forall (valid dims) xs →
  (∀ final i, shaped dims final → valid dims i →
              body final i = replace final i (Leaf (f i))) →
  ∀ final, shaped dims final →
  ∃ t, for_loop body xs final = Some t ∧ shaped dims t ∧
       (∀ c, c ∈ xs → find_val t c = Some (Leaf (f c))) ∧
       (∀ c, valid dims c → c ∉ xs → find_val t c = find_val final c).
Proof.
  intros Hne Hnd Hval Hbody. induction Hnd as [|x xs Hx Hnd IH]; intros final Hfinal.
  - exists final. split_and!; try done. by intros c ?%elem_of_nil.
  - apply Forall_cons in Hval as [Hvx Hval]. simpl.
    rewrite Hbody by done.
    destruct (replace_shaped dims final x (f x)) as (t1 & -> & Ht1 & Hx1 & Hother1);
      [done..|]. simpl.
    destruct (IH Hval t1 Ht1) as (t & Hloop & Ht & Hin & Hout).
    exists t. split; [done|]. split; [done|]. split.
    + intros c [->|Hc]%elem_of_cons; [|by apply Hin].
      by rewrite Hout.
    + intros c Hc [Hcx Hcxs]%not_elem_of_cons.
      rewrite Hout by done. by apply Hother1.
Qed.

Lemma render_nd_spec repr g xray :
  wf_game g → dimensions g ≠ [] →
  ∃ t, render_nd repr g xray = Some t ∧ shaped (dimensions g) t ∧
       ∀ c, valid (dimensions g) c → find_val t c = Some (Leaf (shown g xray c)).
Proof.
  intros Hwf Hne. unfold render_nd.
  destruct (new_board_shaped (dimensions g) "0"%string Hne) as (final & -> & Hfinal & _).
  destruct (dimensions g) as [|d ds] eqn:Hdims; [done|].
  rewrite get_coordinates_coords. cbn [mbind option_bind].
  destruct (fill_loop (d :: ds) (render_cell repr g xray) (shown g xray)
              (elements (list_to_set (C:=gset (list Z)) (coords (d :: ds)))))
    with (final := final) as (t & Hloop & Ht & Hin & _); try done.
  - apply NoDup_elements.
  - apply Forall_forall. intros c Hc%elem_of_elements.
    by apply elem_of_list_to_set, elem_of_coords in Hc.
  - intros final' i Hf Hi. rewrite <- Hdims in *.
    by apply render_cell_replace.
  - exists t. split; [done|]. split; [done|]. intros c Hc. apply Hin.
    by apply elem_of_elements, elem_of_list_to_set, elem_of_coords.
Qed.

(** X18. On a well-formed game with at least one axis [render_nd] returns
    an array of the shape of the board in which every valid coordinate
    holds what its cell shows: ["_"] when the cell is hidden and the view
    is not an x-ray, and otherwise ["."] for a bomb, a space for 0 and the
    count in decimal for any other count. *)
Theorem render_nd_shows repr g xray :
  wf_game g → dimensions g ≠ [] →
  ∃ t, render_nd repr g xray = Some t ∧ shaped (dimensions g) t ∧
       ∀ c, valid (dimensions g) c → find_val t c = Some (Leaf (shown g xray c)).
Proof. intros Hwf Hne. by apply render_nd_spec. Qed.

Lemma render_nd_shows_witness :
  ∃ t, render_nd (λ _ _, EmptyString)
         (game24 [[true; false; false; true]; [true; true; false; true]]) false = Some t ∧
       shaped [2; 4] t ∧
       ∀ c, valid [2; 4] c →
            find_val t c =
              Some (Leaf (shown (game24 [[true; false; false; true];
                                         [true; true; false; true]]) false c)).
Proof.
  apply (render_nd_shows (λ _ _, EmptyString)
           (game24 [[true; false; false; true]; [true; true; false; true]]) false).
  - split; vm_compute; exact I.
  - done.
Defined.

(** The doctests of [render_nd], on the 2-D board. *)
Example render_nd_values :
  render_nd (λ _ _, EmptyString)
    (game24 [[true; false; false; true]; [true; true; false; true]]) false =
    Some (Node [Node (Leaf <$> ["_"; "3"; "1"; "_"]%string);
                Node (Leaf <$> ["_"; "_"; "1"; "_"]%string)]) ∧
  render_nd (λ _ _, EmptyString)
    (game24 [[true; false; true; false]; [true; true; true; false]]) true =
    Some (Node [Node (Leaf <$> ["."; "3"; "1"; " "]%string);
                Node (Leaf <$> ["."; "."; "1"; " "]%string)]).
Proof. by vm_compute. Qed.

(** *** Arrays that agree everywhere are equal *)

Lemma lookup_range d i : 0 ≤ i < d → range d !! Z.to_nat i = Some i.
Proof.
  intros Hi. unfold range, range2. rewrite list_lookup_fmap.
  rewrite lookup_seq_lt by lia. simpl. f_equal. lia.
Qed.

Lemma shaped_ext {A} `{LeafSubscript A} dims : ∀ t1 t2 : nd A,
  shaped dims t1 → shaped dims t2 →
  (∀ c, valid dims c → find_val t1 c = find_val t2 c) → t1 = t2.
Proof.
  unfold valid. induction dims as [|d ds IH]; intros t1 t2 H1 H2 Heq.
  - apply shaped_nil in H1 as [a1 ->]. apply shaped_nil in H2 as [a2 ->].
    specialize (Heq [] ltac:(constructor)). by injection Heq as ->.
  - apply shaped_cons in H1 as (l1 & -> & Hl1 & Hall1).
    apply shaped_cons in H2 as (l2 & -> & Hl2 & Hall2).
    f_equal. apply list_eq_same_length with (Z.to_nat d); [done..|].
    intros k b1 b2 Hk Hb1 Hb2. apply IH.
    + by eapply Forall_lookup_1 in Hall1.
    + by eapply Forall_lookup_1 in Hall2.
    + intros c Hc. specialize (Heq (Z.of_nat k :: c)).
      simpl in Heq. rewrite !getitem_nonneg in Heq by lia.
      rewrite Nat2Z.id, Hb1, Hb2 in Heq. apply Heq.
      constructor; [lia|done].
Qed.

Lemma shaped_nd_map {A B} (f : A → B) dims : ∀ t : nd A,
  shaped dims t → shaped dims (nd_map f t).
Proof.
  induction dims as [|d ds IH]; intros t Ht.
  - by apply shaped_nil in Ht as [a ->].
  - apply shaped_cons in Ht as (l & -> & Hl & Hall). simpl.
    apply shaped_cons. eexists. split; [done|]. rewrite length_fmap.
    split; [done|]. apply Forall_fmap. eapply Forall_impl; [done|]. apply IH.
Qed.

Lemma find_val_nd_map {A B} `{LeafSubscript A, LeafSubscript B} (f : A → B) dims :
  ∀ (t : nd A) c a,
  shaped dims t → valid dims c → find_val t c = Some (Leaf a) →
  find_val (nd_map f t) c = Some (Leaf (f a)).
Proof.
  unfold valid. induction dims as [|d ds IH]; intros t c a Ht Hc Ha.
  - apply Forall2_nil_inv_l in Hc as ->. simpl in *. by injection Ha as ->.
  - apply Forall2_cons_inv_l in Hc as (i & c' & Hi & Hc' & ->).
    apply shaped_cons in Ht as (l & -> & Hl & Hall). simpl in Ha. simpl.
    rewrite getitem_nonneg in Ha by lia.
    rewrite getitem_nonneg by (rewrite length_fmap; lia).
    rewrite list_lookup_fmap.
    destruct (l !! Z.to_nat i) as [b|] eqn:Hb; simpl in *; [|done].
    eapply IH; [|done..]. by eapply Forall_lookup_1 in Hall.
Qed.

Lemma picture_shaped g xray r c : shaped [r; c] (picture g xray r c).
Proof.
  unfold picture. apply shaped_cons. eexists. split; [done|].
  rewrite length_fmap, length_range. split; [done|].
  apply Forall_fmap, Forall_forall. intros i _. simpl.
  apply shaped_cons. eexists. split; [done|].
  rewrite length_fmap, length_range. split; [done|].
  apply Forall_fmap, Forall_forall. by intros j _.
Qed.

Lemma picture_row g xray r c i :
  0 ≤ i < r →
  find_val (picture g xray r c) [i] =
    Some (Node ((λ j, Leaf (Text (shown g xray [i; j]))) <$> range c)).
Proof.
  intros Hi. unfold picture. simpl.
  rewrite getitem_nonneg by (rewrite length_fmap, length_range; lia).
  by rewrite list_lookup_fmap, lookup_range.
Qed.

Lemma picture_cell g xray r c i j :
  0 ≤ i < r → 0 ≤ j < c →
  find_val (picture g xray r c) [i; j] = Some (Leaf (Text (shown g xray [i; j]))).
Proof.
  intros Hi Hj. change [i; j] with ([i] ++ [j]).
  rewrite find_val_app, picture_row by done. simpl.
  rewrite getitem_nonneg by (rewrite length_fmap, length_range; lia).
  by rewrite list_lookup_fmap, lookup_range.
Qed.

Lemma valid2 r c x : valid [r; c] x ↔ ∃ i j, x = [i; j] ∧ 0 ≤ i < r ∧ 0 ≤ j < c.
Proof.
  unfold valid. split.
  - intros (i & x' & Hi & (j & x'' & Hj & ->%Forall2_nil_inv_l & ->)%Forall2_cons_inv_l
            & ->)%Forall2_cons_inv_l.
    by exists i, j.
  - intros (i & j & -> & Hi & Hj).
    constructor; [done|]. constructor; [done|]. constructor.
Qed.

(** *** The 2-D renderers *)

Lemma string_app_assoc (s1 s2 s3 : string) :
  ((s1 +:+ s2) +:+ s3 = s1 +:+ (s2 +:+ s3))%string.
Proof.
  induction s1 as [|a s1 IH]; [done|].
  change (String a ((s1 +:+ s2) +:+ s3) = String a (s1 +:+ (s2 +:+ s3))).
  by rewrite IH.
Qed.

Lemma string_app_empty (s1 : string) : (s1 +:+ EmptyString = s1)%string.
Proof.
  induction s1 as [|a s1 IH]; [done|].
  change (String a (s1 +:+ EmptyString) = String a s1). by rewrite IH.
Qed.

Lemma range_snoc d : 0 < d → range d = range (d - 1) ++ [d - 1].
Proof.
  intros Hd. unfold range, range2.
  replace (Z.to_nat (d - 0)) with (S (Z.to_nat (d - 1 - 0))) by lia.
  rewrite seq_S, fmap_app. simpl. do 2 f_equal. lia.
Qed.

(** A loop that stores [f x] at the coordinate [at x] for every [x] of a
    list, its body relying on what is at that coordinate beforehand. *)
Lemma fill_loop_pre {A X} `{LeafSubscript A} dims
    (body : nd A → X → option (nd A)) (at_ : X → list Z) (pre f : X → A) xs :
  dims ≠ [] → NoDup (at_ <$> xs) → Forall (λ x, valid dims (at_ x)) xs →
  (∀ final x, x ∈ xs → shaped dims final →
              find_val final (at_ x) = Some (Leaf (pre x)) →
              body final x = replace final (at_ x) (Leaf (f x))) →
  ∀ final, shaped dims final →
  (∀ x, x ∈ xs → find_val final (at_ x) = Some (Leaf (pre x))) →
  ∃ t, for_loop body xs final = Some t ∧ shaped dims t ∧
       (∀ x, x ∈ xs → find_val t (at_ x) = Some (Leaf (f x))) ∧
       (∀ c, valid dims c → c ∉ at_ <$> xs → find_val t c = find_val final c).
Proof.
  intros Hne. induction xs as [|x xs IH]; intros Hnd Hval Hbody final Hfinal Hpre.
  - exists final. split_and!; try done. by intros x ?%elem_of_nil.
  - rewrite fmap_cons in Hnd. apply NoDup_cons in Hnd as [Hx Hnd].
    apply Forall_cons in Hval as [Hvx Hval]. simpl.
    rewrite Hbody; [|by left|done|by apply Hpre; left].
    destruct (replace_shaped dims final (at_ x) (f x))
      as (t1 & -> & Ht1 & Hx1 & Hother1); [done..|]. simpl.
    destruct (IH Hnd Hval) with (final := t1) as (t & Hloop & Ht & Hin & Hout).
    + intros final' y Hy. apply Hbody. by right.
    + done.
    + intros y Hy. rewrite Hother1.
      * apply Hpre. by right.
      * by eapply Forall_forall in Hval.
      * intros Heq. apply Hx. rewrite <- Heq. by apply list_elem_of_fmap_2.
    + exists t. split; [done|]. split; [done|]. split.
      * intros y [->|Hy]%elem_of_cons; [|by apply Hin]. by rewrite Hout.
      * intros c0 Hc0. intros [Hc1 Hc2]%not_elem_of_cons.
        rewrite Hout by done. by apply Hother1.
Qed.

Section render_2d.
Variable repr : ∀ A : Type, nd A → string.
Variables (g : game) (xray : bool) (r c : Z).
Hypothesis g_wf : wf_game g.
Hypothesis g_dims : dimensions g = [r; c].

Lemma cell_of i j :
  0 ≤ i < r → 0 ≤ j < c →
  ∃ b h, find_val (board g) [i; j] = Some (Leaf b) ∧
         find_val (hidden g) [i; j] = Some (Leaf h).
Proof.
  intros Hi Hj. destruct g_wf as [Hb Hh]. rewrite g_dims in Hb, Hh.
  assert (valid [r; c] [i; j]) as Hv by (apply valid2; by exists i, j).
  destruct (find_val_shaped _ _ _ Hb Hv) as [b ->].
  destruct (find_val_shaped _ _ _ Hh Hv) as [h ->]. by exists b, h.
Qed.

Lemma render_2d_cell_replace bd i j :
  shaped [r; c] bd → 0 ≤ i < r → 0 ≤ j < c →
  find_val bd [i; j] = Some (Leaf (fresh_text repr g i j)) →
  render_2d_cell g xray i bd j =
    replace bd [i; j] (Leaf (Text (shown g xray [i; j]))).
Proof.
  intros Hbd Hi Hj Hfound. unfold render_2d_cell, shown, fresh_text in *.
  destruct (cell_of i j Hi Hj) as (b & h & Hb & Hh). rewrite Hb, Hh in *.
  assert (valid [r; c] [i; j]) as Hv by (apply valid2; by exists i, j).
  assert ((x ← find_val bd [i; j];
           if eq_str0 x then replace bd [i; j] (Leaf (Text " ")) else Some bd)
          = replace bd [i; j] (Leaf (Text (symbol b)))) as Hplain.
  { rewrite Hfound. cbn [mbind option_bind eq_str0].
    rewrite <- (str_symbol repr b). case_bool_decide; [done|].
    destruct (replace_shaped [r; c] bd [i; j] (Text (str repr (Leaf b))))
      as (t & Hrep & _); [done..|].
    rewrite Hrep. f_equal. symmetry. by eapply replace_same. }
  destruct xray; cbn [negb andb]; [done|].
  cbn [mbind option_bind truthy]. by destruct h.
Qed.

Lemma render_2d_row_spec bd i :
  shaped [r; c] bd → 0 ≤ i < r →
  (∀ j, 0 ≤ j < c →
        ∃ b, find_val (board g) [i; j] = Some (Leaf b) ∧
             find_val bd [i; j] = Some (Leaf (Raw b))) →
  ∃ t, render_2d_row repr g xray bd i = Some t ∧ shaped [r; c] t ∧
       (∀ j, 0 ≤ j < c →
             find_val t [i; j] = Some (Leaf (Text (shown g xray [i; j])))) ∧
       (∀ i' j, 0 ≤ i' < r → 0 ≤ j < c → i' ≠ i →
                find_val t [i'; j] = find_val bd [i'; j]).
Proof.
  intros Hbd Hi Hraw. unfold render_2d_row.
  pose proof Hbd as Hbd0.
  apply shaped_cons in Hbd as (l & -> & Hlen & Hl).
  destruct (lookup_lt_is_Some_2 l (Z.to_nat i)) as [row Hrow]; [lia|].
  assert (shaped [c] row) as Hsrow by by eapply Forall_lookup_1 in Hl.
  apply shaped_cons in Hsrow as (items & -> & Hlenc & Hitems).
  assert (find_val (Node l) [i] = Some (Node items)) as ->.
  { simpl. rewrite getitem_nonneg by lia. by rewrite Hrow. }
  cbn [mbind option_bind map_str].
  set (strs := (λ x, Leaf (Text (str_out repr x))) <$> items).
  rewrite replace_one, setitem_nonneg by lia. cbn [fmap option_fmap option_map mbind option_bind].
  set (bd1 := Node (<[Z.to_nat i := Node strs]> l)).
  rewrite g_dims. change (getitem [r; c] 1) with (Some c). cbn [mbind option_bind].
  assert (shaped [r; c] bd1) as Hbd1.
  { apply shaped_cons. eexists. split; [reflexivity|].
    rewrite length_insert. split; [done|]. apply Forall_insert; [done|].
    apply shaped_cons. eexists. split; [reflexivity|]. unfold strs.
    rewrite length_fmap. split; [done|].
    apply Forall_fmap, Forall_forall. intros x _. apply shaped_nil. by eexists. }
  assert (∀ j, 0 ≤ j < c →
               find_val bd1 [i; j] = Some (Leaf (fresh_text repr g i j))) as Hpre.
  { intros j Hj. destruct (Hraw j Hj) as (b & Hb & Hfound).
    unfold fresh_text. rewrite Hb. revert Hfound. unfold bd1. simpl.
    rewrite !getitem_nonneg by (rewrite ?length_insert; lia).
    rewrite Hrow, list_lookup_insert_eq by lia. simpl.
    rewrite !getitem_nonneg by (unfold strs; rewrite ?length_fmap; lia).
    unfold strs. rewrite list_lookup_fmap.
    destruct (items !! Z.to_nat j) as [x|]; [|done]. simpl.
    destruct x as [a|?]; [|done]. by intros [= ->]. }
  assert (∀ i' j, 0 ≤ i' < r → 0 ≤ j < c → i' ≠ i →
                  find_val bd1 [i'; j] = find_val (Node l) [i'; j]) as Hrest.
  { intros i' j Hi' Hj Hne. unfold bd1. simpl.
    rewrite !getitem_nonneg by (rewrite ?length_insert; lia).
    rewrite list_lookup_insert_ne by lia. done. }
  destruct (fill_loop_pre [r; c] (render_2d_cell g xray i) (λ j, [i; j])
              (fresh_text repr g i) (λ j, Text (shown g xray [i; j])) (range c))
    with (final := bd1) as (t & Hloop & Ht & Hin & Hout).
  - done.
  - apply NoDup_fmap_2; [|apply NoDup_range].
    by intros j1 j2 [= ->].
  - apply Forall_forall. intros j Hj%elem_of_range. apply valid2. by exists i, j.
  - intros final j Hj%elem_of_range Hfinal Hfound.
    by apply render_2d_cell_replace.
  - done.
  - intros j Hj%elem_of_range. by apply Hpre.
  - exists t. split; [done|]. split; [done|]. split.
    + intros j Hj. apply Hin. by apply elem_of_range.
    + intros i' j Hi' Hj Hne. rewrite Hout.
      * by apply Hrest.
      * apply valid2. by exists i', j.
      * intros (j' & [= ? ?] & _)%list_elem_of_fmap. done.
Qed.

Lemma render_2d_rows_spec xs :
  NoDup xs → (∀ i, i ∈ xs → 0 ≤ i < r) →
  ∀ bd, shaped [r; c] bd →
  (∀ i j, i ∈ xs → 0 ≤ j < c →
          ∃ b, find_val (board g) [i; j] = Some (Leaf b) ∧
               find_val bd [i; j] = Some (Leaf (Raw b))) →
  ∃ t, for_loop (render_2d_row repr g xray) xs bd = Some t ∧ shaped [r; c] t ∧
       (∀ i j, i ∈ xs → 0 ≤ j < c →
               find_val t [i; j] = Some (Leaf (Text (shown g xray [i; j])))) ∧
       (∀ i j, 0 ≤ i < r → 0 ≤ j < c → i ∉ xs →
               find_val t [i; j] = find_val bd [i; j]).
Proof.
  induction xs as [|x xs IH]; intros Hnd Hxs bd Hbd Hraw.
  - exists bd. split_and!; try done. by intros i j ?%elem_of_nil.
  - apply NoDup_cons in Hnd as [Hx Hnd]. cbn [for_loop].
    destruct (render_2d_row_spec bd x) as (t1 & -> & Ht1 & Hrow1 & Hrest1).
    + done.
    + apply Hxs. by left.
    + intros j Hj. apply Hraw; [by left|done].
    + cbn [mbind option_bind].
      destruct (IH Hnd) with (bd := t1) as (t & Hloop & Ht & Hin & Hout).
      * intros i Hi. apply Hxs. by right.
      * done.
      * intros i j Hi Hj. rewrite Hrest1; [|apply Hxs; by right|done|by intros ->].
        apply Hraw; [by right|done].
      * exists t. split; [done|]. split; [done|]. split.
        -- intros i j [->|Hi]%elem_of_cons Hj; [|by apply Hin].
           rewrite Hout; [by apply Hrow1| |done|done]. apply Hxs. by left.
        -- intros i j Hi Hj [Hne Hni]%not_elem_of_cons.
           rewrite Hout by done. by apply Hrest1.
Qed.

Lemma slice_copy_board :
  slice_copy (board g) = Some (nd_map Raw (board g)).
Proof.
  destruct g_wf as [Hb _]. rewrite g_dims in Hb.
  by apply shaped_cons in Hb as (l & -> & _).
Qed.

Lemma render_2d_locations_picture :
  render_2d_locations repr g xray = Some (picture g xray r c).
Proof.
  unfold render_2d_locations. rewrite slice_copy_board, g_dims.
  change (getitem [r; c] 0) with (Some r). cbn [mbind option_bind].
  pose proof g_wf as [Hb _]. rewrite g_dims in Hb.
  destruct (render_2d_rows_spec (range r)) with (bd := nd_map Raw (board g))
    as (t & -> & Ht & Hin & _).
  - apply NoDup_range.
  - by intros i Hi%elem_of_range.
  - by apply shaped_nd_map.
  - intros i j Hi%elem_of_range Hj.
    destruct (cell_of i j Hi Hj) as (b & _ & Hfound & _). exists b. split; [done|].
    apply (find_val_nd_map Raw [r; c]); [done| |done].
    apply valid2. by exists i, j.
  - f_equal. apply (shaped_ext [r; c]); [done|apply picture_shaped|].
    intros x (i & j & -> & Hi & Hj)%valid2.
    rewrite picture_cell by done. apply Hin; [by apply elem_of_range|done].
Qed.
Lemma join_texts (sh : Z → string) xs :
  join (Node ((λ j, Leaf (Text (sh j))) <$> xs)) =
    Some (foldr (λ j rest, sh j +:+ rest) EmptyString xs).
Proof.
  unfold join. induction xs as [|x xs IH]; [done|].
  rewrite fmap_cons. cbn [foldr]. by rewrite IH.
Qed.

Lemma join_rows_picture lst rows :
  (∀ i, i ∈ rows → 0 ≤ i < r) → NoDup rows → (rows ≠ [] → last rows = Some lst) →
  ∀ art,
  join_rows (picture g xray r c) lst rows art =
    Some (art +:+ String.concat Store.newline (line g xray c <$> rows)).
Proof.
  induction rows as [|row rest IH]; intros Hin Hnd Hlast art.
  - simpl. by rewrite string_app_empty.
  - apply NoDup_cons in Hnd as [Hrow Hnd]. cbn [join_rows].
    rewrite picture_row by (apply Hin; by left).
    cbn [mbind option_bind]. rewrite join_texts. cbn [mbind option_bind].
    fold (line g xray c row).
    destruct rest as [|row2 rest'].
    + specialize (Hlast ltac:(done)). injection Hlast as <-.
      rewrite bool_decide_eq_false_2 by (by intros []). done.
    + assert (last (row2 :: rest') = Some lst) as Hlast' by (by apply Hlast).
      rewrite bool_decide_eq_true_2.
      2:{ intros ->. apply Hrow. rewrite last_lookup in Hlast'.
          by eapply list_elem_of_lookup_2. }
      rewrite IH; [|intros i Hi; apply Hin; by right|done|done].
      f_equal. rewrite !fmap_cons. cbn [String.concat].
      by rewrite !string_app_assoc.
Qed.

Lemma render_2d_board_picture :
  render_2d_board repr g xray =
    Some (String.concat Store.newline (line g xray c <$> range r)).
Proof.
  unfold render_2d_board. rewrite render_2d_locations_picture, g_dims.
  change (getitem [r; c] 0) with (Some r). cbn [mbind option_bind].
  rewrite join_rows_picture; [done| |apply NoDup_range|].
  - by intros i Hi%elem_of_range.
  - intros Hne. destruct (decide (0 < r)) as [Hr|Hr].
    + rewrite range_snoc by done. by rewrite last_snoc.
    + exfalso. apply Hne. unfold range, range2.
      by replace (Z.to_nat (r - 0)) with 0%nat by lia.
Qed.
End render_2d.

(** X19. On a well-formed 2-D game [render_2d_locations] returns the
    array of [r] rows of [c] strings in which the entry at row [i] and
    column [j] is what the cell shows: ["_"] when it is hidden and the view
    is not an x-ray, and otherwise ["."] for a bomb, a space for 0 and the
    count in decimal for any other count. *)
Theorem render_2d_locations_shows repr g xray r c :
  wf_game g → dimensions g = [r; c] →
  render_2d_locations repr g xray =
    Some (Node ((λ i, Node ((λ j, Leaf (Text (shown g xray [i; j]))) <$> range c))
                <$> range r)).
Proof. intros Hwf Hdims. by apply render_2d_locations_picture. Qed.

Lemma render_2d_locations_shows_witness :
  render_2d_locations (λ _ _, EmptyString)
      (game24 [[true; false; false; true]; [true; true; false; true]]) false =
    Some (Node ((λ i, Node ((λ j, Leaf (Text
             (shown (game24 [[true; false; false; true]; [true; true; false; true]])
                    false [i; j]))) <$> range 4)) <$> range 2)).
Proof.
  apply (render_2d_locations_shows (λ _ _, EmptyString)
           (game24 [[true; false; false; true]; [true; true; false; true]]) false 2 4).
  - split; vm_compute; exact I.
  - reflexivity.
Defined.

(** X20. On a well-formed 2-D game the two renderers agree:
    [render_2d_locations] returns the array that [render_nd] returns. *)
Theorem render_2d_locations_is_render_nd repr g xray r c :
  wf_game g → dimensions g = [r; c] →
  render_2d_locations repr g xray = nd_map Text <$> render_nd repr g xray.
Proof.
  intros Hwf Hdims. rewrite (render_2d_locations_picture repr g xray r c) by done.
  destruct (render_nd_spec repr g xray) as (t & -> & Ht & Hcells);
    [done|by rewrite Hdims|].
  rewrite Hdims in Ht, Hcells. cbn [fmap option_fmap option_map]. f_equal.
  apply (shaped_ext [r; c]).
  - apply picture_shaped.
  - by apply shaped_nd_map.
  - intros x Hx. pose proof Hx as (i & j & -> & Hi & Hj)%valid2.
    rewrite picture_cell by done. symmetry.
    apply (find_val_nd_map Text [r; c]); [done..|]. by apply Hcells.
Qed.

Lemma render_2d_locations_is_render_nd_witness :
  render_2d_locations (λ _ _, EmptyString)
      (game24 [[true; false; true; false]; [true; true; true; false]]) true =
    nd_map Text <$>
      render_nd (λ _ _, EmptyString)
        (game24 [[true; false; true; false]; [true; true; true; false]]) true.
Proof.
  apply (render_2d_locations_is_render_nd (λ _ _, EmptyString)
           (game24 [[true; false; true; false]; [true; true; true; false]]) true 2 4).
  - split; vm_compute; exact I.
  - reflexivity.
Defined.

(** X21. On a well-formed 2-D game [render_2d_board] returns the rows of
    the picture, each as the concatenation of what its cells show, joined
    by a newline, with no newline after the last row. *)
Theorem render_2d_board_lines repr g xray r c :
  wf_game g → dimensions g = [r; c] →
  render_2d_board repr g xray =
    Some (String.concat Store.newline (line g xray c <$> range r)).
Proof. intros Hwf Hdims. by apply render_2d_board_picture. Qed.

Lemma render_2d_board_lines_witness :
  render_2d_board (λ _ _, EmptyString)
      (game24 [[false; false; false; true]; [true; true; false; true]]) false =
    Some (String.concat Store.newline
            (line (game24 [[false; false; false; true]; [true; true; false; true]])
                  false 4 <$> range 2)).
Proof.
  apply (render_2d_board_lines (λ _ _, EmptyString)
           (game24 [[false; false; false; true]; [true; true; false; true]]) false 2 4).
  - split; vm_compute; exact I.
  - reflexivity.
Defined.

(** The doctests of the 2-D renderers. *)
Example render_2d_values :
  render_2d_locations (λ _ _, EmptyString)
    (game24 [[true; false; false; true]; [true; true; false; true]]) false =
    Some (Node [Node (Leaf ∘ Text <$> ["_"; "3"; "1"; "_"]%string);
                Node (Leaf ∘ Text <$> ["_"; "_"; "1"; "_"]%string)]) ∧
  render_2d_locations (λ _ _, EmptyString)
    (game24 [[true; false; true; false]; [true; true; true; false]]) true =
    Some (Node [Node (Leaf ∘ Text <$> ["."; "3"; "1"; " "]%string);
                Node (Leaf ∘ Text <$> ["."; "."; "1"; " "]%string)]) ∧
  render_2d_board (λ _ _, EmptyString)
    (game24 [[false; false; false; true]; [true; true; false; true]]) false =
    Some (".31_" +:+ Store.newline +:+ "__1_")%string.
Proof. by vm_compute. Qed.
